(** * A consistent-hashing key-value store: ring, registry and storage node

    Shallow embedding of [hashing.py] (the consistent hash ring),
    [coordinator/coordinator.py] (the registry service), [node/node.py]
    (the storage node) and [client/client.py] (the client), followed by the
    properties of the written specification and by further properties of
    the code.

    Conventions of the embedding.
    - A Python [str] is a [string] whose characters are read as the code
      points 0..255; [dict]s whose iteration order cannot be observed are
      [gmap]s, [set]s are [gset]s, and the registry's liveness table, which
      the sweep iterates in insertion order, is an association list.
    - A Python [int] is a [Z]; clock readings ([time.time()]) are taken as
      integer time units, on which the subtraction of the sweep is exact.
    - A method that can raise returns a [result]; the registry methods, which
      take a non-reentrant [threading.Lock], run in a small outcome monad that
      records the lock and can also end blocked on it. *)

From Stdlib Require Import ZArith Ascii String List Lia DecimalString.
From Stdlib Require DecimalPos.
From stdpp Require Import gmap strings list fin_maps sorting.

Local Open Scope Z_scope.

(** ** Python built-ins used by the three modules *)

Module Py.

(** The exceptions the modelled code can raise; each carries what
    [str(e)] prints. *)
Inductive exception : Type :=
| ValueError (msg : string)
| KeyError (key : Z)
| IndexError (msg : string).

Inductive result (A : Type) : Type :=
| Return (a : A)
| Raise (e : exception).
Global Arguments Return {A} a.
Global Arguments Raise {A} e.

(** [str(n)] for an int. *)
Definition str_int (n : Z) : string := NilZero.string_of_int (Z.to_int n).

(** [str(e)]: the message, or the [repr] of the missing key. *)
Definition str_exception (e : exception) : string :=
  match e with
  | ValueError msg => msg
  | KeyError key => str_int key
  | IndexError msg => msg
  end.

Definition code (c : ascii) : Z := Z.of_N (N_of_ascii c).

(** [str.isspace] on one character (code points below 256). *)
Definition isspace (c : ascii) : bool :=
  let n := code c in
  ((9 <=? n) && (n <=? 13)) || ((28 <=? n) && (n <=? 32))
  || (n =? 133) || (n =? 160).

(** The white space [int()] strips: as [isspace] but without the
    separators 28..31. *)
Definition int_space (c : ascii) : bool :=
  let n := code c in
  ((9 <=? n) && (n <=? 13)) || (n =? 32) || (n =? 133) || (n =? 160).

Fixpoint lstrip_by (sp : ascii -> bool) (s : string) : string :=
  match s with
  | String c s' => if sp c then lstrip_by sp s' else s
  | EmptyString => EmptyString
  end.

(** Drops the trailing characters satisfying [sp]. *)
Fixpoint rstrip_by (sp : ascii -> bool) (s : string) : string :=
  match s with
  | String c s' =>
      match rstrip_by sp s' with
      | EmptyString => if sp c then EmptyString else String c EmptyString
      | t => String c t
      end
  | EmptyString => EmptyString
  end.

Definition lstrip : string -> string := lstrip_by isspace.
Definition strip (s : string) : string := rstrip_by isspace (lstrip s).

(** The maximal prefix without white space, and what follows it. *)
Fixpoint take_word (s : string) : string * string :=
  match s with
  | String c s' =>
      if isspace c then (EmptyString, s)
      else let (w, r) := take_word s' in (String c w, r)
  | EmptyString => (EmptyString, EmptyString)
  end.

(** [s.split(maxsplit=n)]: skip white space, cut a word, at most [n] times;
    what is left after [n] words, without its leading white space, is the
    last field. *)
Fixpoint split_max (n : nat) (s : string) : list string :=
  match lstrip s with
  | EmptyString => []
  | s1 =>
      match n with
      | O => [s1]
      | S n' => let (w, r) := take_word s1 in w :: split_max n' r
      end
  end.

(** [s.split()]: no bound on the number of fields. A string has fewer
    words than characters, so the bound below is never reached. *)
Definition split (s : string) : list string := split_max (String.length s) s.

(** [s.split(sep)] for a one-character separator: never empty. *)
Fixpoint split_on (sep : ascii) (s : string) : list string :=
  match s with
  | EmptyString => [EmptyString]
  | String c s' =>
      if Ascii.eqb c sep then EmptyString :: split_on sep s'
      else match split_on sep s' with
           | w :: ws => String c w :: ws
           | [] => [String c EmptyString]
           end
  end.

(** [sep.join(l)]. *)
Fixpoint join (sep : string) (l : list string) : string :=
  match l with
  | [] => EmptyString
  | [w] => w
  | w :: ws => w +:+ sep +:+ join sep ws
  end.

Definition digit (c : ascii) : option Z :=
  let n := code c in
  if (48 <=? n) && (n <=? 57) then Some (n - 48) else None.

(** Digits with single underscores between them, most significant first;
    [prev] tells whether the previous character was a digit. *)
Fixpoint int_digits (acc : Z) (prev : bool) (s : string) : option Z :=
  match s with
  | EmptyString => if prev then Some acc else None
  | String c s' =>
      match digit c with
      | Some d => int_digits (10 * acc + d) true s'
      | None =>
          if Ascii.eqb c "_"%char && prev then int_digits acc false s'
          else None
      end
  end.

(** [int(s)]: optional white space around an optionally signed decimal
    literal; [None] stands for the [ValueError]. *)
Definition int (s : string) : option Z :=
  match rstrip_by int_space (lstrip_by int_space s) with
  | String c s' =>
      if Ascii.eqb c "-"%char then Z.opp <$> int_digits 0 false s'
      else if Ascii.eqb c "+"%char then int_digits 0 false s'
      else int_digits 0 false (String c s')
  | EmptyString => None
  end.

Definition invalid_literal (s : string) : exception :=
  ValueError ("invalid literal for int() with base 10: '" +:+ s +:+ "'").

(** [a, b = l]: unpacking into exactly two names. *)
Definition unpack2 (l : list string) : result (string * string) :=
  match l with
  | [a; b] => Return (a, b)
  | _ :: _ :: _ :: _ => Raise (ValueError "too many values to unpack (expected 2)")
  | _ =>
      Raise (ValueError ("not enough values to unpack (expected 2, got "
                         +:+ str_int (Z.of_nat (length l)) +:+ ")"))
  end.

(** A field of the wire protocol: not empty, no white space. *)
Definition token (s : string) : Prop :=
  s <> EmptyString /\ forall c, In c (list_ascii_of_string s) -> isspace c = false.

(** A final field: not empty, and it does not start with white space. *)
Definition payload (s : string) : Prop :=
  exists c s', s = String c s' /\ isspace c = false.

End Py.

(** ** SHA-256 ([hashlib.sha256]), on bytes held as [Z] *)

Module Sha256.

Definition w32 (x : Z) : Z := Z.land x 4294967295.
Definition add32 (x y : Z) : Z := w32 (x + y).
Definition rotr (n x : Z) : Z := Z.lor (Z.shiftr x n) (w32 (Z.shiftl x (32 - n))).
Definition not32 (x : Z) : Z := Z.lxor x 4294967295.

Definition ch (x y z : Z) : Z := Z.lxor (Z.land x y) (Z.land (not32 x) z).
Definition maj (x y z : Z) : Z :=
  Z.lxor (Z.lxor (Z.land x y) (Z.land x z)) (Z.land y z).
Definition bsig0 (x : Z) : Z := Z.lxor (Z.lxor (rotr 2 x) (rotr 13 x)) (rotr 22 x).
Definition bsig1 (x : Z) : Z := Z.lxor (Z.lxor (rotr 6 x) (rotr 11 x)) (rotr 25 x).
Definition ssig0 (x : Z) : Z := Z.lxor (Z.lxor (rotr 7 x) (rotr 18 x)) (Z.shiftr x 3).
Definition ssig1 (x : Z) : Z := Z.lxor (Z.lxor (rotr 17 x) (rotr 19 x)) (Z.shiftr x 10).

Definition K : list Z :=
  [1116352408; 1899447441; 3049323471; 3921009573; 961987163; 1508970993;
   2453635748; 2870763221; 3624381080; 310598401; 607225278; 1426881987;
   1925078388; 2162078206; 2614888103; 3248222580; 3835390401; 4022224774;
   264347078; 604807628; 770255983; 1249150122; 1555081692; 1996064986;
   2554220882; 2821834349; 2952996808; 3210313671; 3336571891; 3584528711;
   113926993; 338241895; 666307205; 773529912; 1294757372; 1396182291;
   1695183700; 1986661051; 2177026350; 2456956037; 2730485921; 2820302411;
   3259730800; 3345764771; 3516065817; 3600352804; 4094571909; 275423344;
   430227734; 506948616; 659060556; 883997877; 958139571; 1322822218;
   1537002063; 1747873779; 1955562222; 2024104815; 2227730452; 2361852424;
   2428436474; 2756734187; 3204031479; 3329325298].

Definition H0 : list Z :=
  [1779033703; 3144134277; 1013904242; 2773480762;
   1359893119; 2600822924; 528734635; 1541459225].

(** Big-endian bytes of [x], [n] of them. *)
Fixpoint be_bytes (n : nat) (x : Z) : list Z :=
  match n with
  | O => []
  | S n' => be_bytes n' (Z.shiftr x 8) ++ [Z.land x 255]
  end.

Definition be_int (bs : list Z) : Z := fold_left (fun acc b => 256 * acc + b) bs 0.

(** The message, the byte 128, zeros up to 56 modulo 64, and the length in
    bits on eight bytes. *)
Definition pad (msg : list Z) : list Z :=
  let len := Z.of_nat (length msg) in
  let zeros := Z.to_nat ((55 - len) mod 64) in
  msg ++ [128] ++ repeat 0 zeros ++ be_bytes 8 (8 * len).

Fixpoint chunks (size fuel : nat) (l : list Z) : list (list Z) :=
  match fuel with
  | O => []
  | S fuel' =>
      match l with
      | [] => []
      | _ => take size l :: chunks size fuel' (drop size l)
      end
  end.

(** The message schedule, most recent word first. *)
Fixpoint extend (n : nat) (rw : list Z) : list Z :=
  match n with
  | O => rw
  | S n' =>
      let w := add32 (add32 (ssig1 (nth 1 rw 0)) (nth 6 rw 0))
                     (add32 (ssig0 (nth 14 rw 0)) (nth 15 rw 0)) in
      extend n' (w :: rw)
  end.

Definition schedule (block : list Z) : list Z :=
  rev (extend 48 (rev (map be_int (chunks 4 16 block)))).

Definition round (st : list Z) (kw : Z * Z) : list Z :=
  match st with
  | [a; b; c; d; e; f; g; h] =>
      let t1 := add32 (add32 (add32 h (bsig1 e)) (add32 (ch e f g) (fst kw))) (snd kw) in
      let t2 := add32 (bsig0 a) (maj a b c) in
      [add32 t1 t2; a; b; c; add32 d t1; e; f; g]
  | _ => st
  end.

Definition compress (h : list Z) (block : list Z) : list Z :=
  let st := fold_left round (combine K (schedule block)) h in
  map (fun p => add32 (fst p) (snd p)) (combine h st).

Definition digest (msg : list Z) : list Z :=
  let padded := pad msg in
  fold_left compress (chunks 64 (length padded) padded) H0.

(** [int(hexdigest, 16)]: the digest read as one big-endian number. *)
Definition digest_int (msg : list Z) : Z :=
  fold_left (fun acc w => 4294967296 * acc + w) (digest msg) 0.

(** [s.encode('utf-8')] for code points below 256. *)
Fixpoint utf8 (s : string) : list Z :=
  match s with
  | EmptyString => []
  | String c s' =>
      let n := Py.code c in
      if n <? 128 then n :: utf8 s'
      else Z.lor 192 (Z.shiftr n 6) :: Z.lor 128 (Z.land n 63) :: utf8 s'
  end.

End Sha256.


(** ** [hashing.py]: the consistent hash ring *)

Module Hashing.
Import Py.

(** Number of virtual nodes per physical node. *)
Definition VIRTUAL_NODES : nat := 3.

(** [_hash]: the SHA-256 digest of the UTF-8 bytes, as an integer. *)
Definition _hash (key : string) : Z := Sha256.digest_int (Sha256.utf8 key).

Record ConsistentHashRing : Type := {
  ring : gmap Z string;          (* hash_value -> node_id *)
  sorted_keys : list Z;          (* sorted list of hash values *)
  nodes : gset string            (* set of physical node ids *)
}.

(** [__init__]: an empty hash ring. *)
Definition __init__ : ConsistentHashRing :=
  {| ring := ∅; sorted_keys := []; nodes := ∅ |}.

(** [sorted(d.keys())] on a dict with integer keys. *)
Definition keys (d : gmap Z string) : list Z := (map_to_list d).*1.
Definition sorted (l : list Z) : list Z := merge_sort Z.le l.

(** [f"{node_id}:virtual:{i}"]. *)
Definition virtual_key (node_id : string) (i : nat) : string :=
  node_id +:+ ":virtual:" +:+ str_int (Z.of_nat i).

(** The positions [add_node] writes for a node, in the order of its loop. *)
Definition virtual_hashes (node_id : string) : list Z :=
  (fun i => _hash (virtual_key node_id i)) <$> seq 0 VIRTUAL_NODES.

Definition add_node (r : ConsistentHashRing) (node_id : string) : ConsistentHashRing :=
  if decide (node_id ∈ nodes r) then r
  else
    let ring' :=
      foldl (fun d hash_value => <[hash_value := node_id]> d)
            (ring r) (virtual_hashes node_id) in
    {| ring := ring'; sorted_keys := sorted (keys ring');
       nodes := {[node_id]} ∪ nodes r |}.

Definition remove_node (r : ConsistentHashRing) (node_id : string) : ConsistentHashRing :=
  if decide (node_id ∉ nodes r) then r
  else
    let hash_values_to_remove :=
      (filter (fun hn => hn.2 = node_id) (map_to_list (ring r))).*1 in
    let ring' := foldl (fun d h => delete h d) (ring r) hash_values_to_remove in
    {| ring := ring'; sorted_keys := sorted (keys ring');
       nodes := nodes r ∖ {[node_id]} |}.

(** [bisect.bisect_right]: the binary search of the library, cut after
    [fuel] halvings; [len(a)] of them are always enough. *)
Fixpoint bisect_loop (fuel : nat) (a : list Z) (x : Z) (lo hi : nat) : nat :=
  match fuel with
  | O => lo
  | S fuel' =>
      if decide (lo < hi)%nat then
        let mid := ((lo + hi) / 2)%nat in
        match a !! mid with
        | Some v =>
            if decide (x < v) then bisect_loop fuel' a x lo mid
            else bisect_loop fuel' a x (S mid) hi
        | None => lo
        end
      else lo
  end.

Definition bisect_right (a : list Z) (x : Z) : nat :=
  bisect_loop (length a) a x 0 (length a).

Definition empty_ring_error : exception :=
  ValueError "Ring is empty, no nodes available".

(** [l[i]] and [d[k]] with the exceptions of Python. *)
Definition list_getitem (l : list Z) (i : nat) : result Z :=
  match l !! i with
  | Some v => Return v
  | None => Raise (IndexError "list index out of range")
  end.

Definition dict_getitem (d : gmap Z string) (k : Z) : result string :=
  match d !! k with
  | Some v => Return v
  | None => Raise (KeyError k)
  end.

(** The index both lookups start from: the insertion point, wrapped to 0
    past the end. *)
Definition start_index (r : ConsistentHashRing) (key : string) : nat :=
  let hash_value := _hash key in
  let idx := bisect_right (sorted_keys r) hash_value in
  if decide (idx = length (sorted_keys r)) then 0%nat else idx.

Definition get_node (r : ConsistentHashRing) (key : string) : result string :=
  if decide (ring r = ∅) then Raise empty_ring_error
  else
    let idx := start_index r key in
    match list_getitem (sorted_keys r) idx with
    | Return p => dict_getitem (ring r) p
    | Raise e => Raise e
    end.

(** The body of the [for i in range(len(self.sorted_keys))] loop of
    [get_nodes], over the remaining values of [i]; [acc] is the list
    [nodes] of the source, [seen] its set. *)
Fixpoint get_nodes_loop (r : ConsistentHashRing) (idx : nat) (count : Z)
    (range : list nat) (acc : list string) (seen : gset string)
    : result (list string) :=
  match range with
  | [] => Return acc
  | i :: range' =>
      let current_idx := ((idx + i) mod length (sorted_keys r))%nat in
      match list_getitem (sorted_keys r) current_idx with
      | Raise e => Raise e
      | Return p =>
          match dict_getitem (ring r) p with
          | Raise e => Raise e
          | Return node_id =>
              if decide (node_id ∈ seen) then
                get_nodes_loop r idx count range' acc seen
              else
                let acc' := acc ++ [node_id] in
                if decide (Z.of_nat (length acc') = count) then Return acc'
                else get_nodes_loop r idx count range' acc' ({[node_id]} ∪ seen)
          end
      end
  end.

Definition get_nodes (r : ConsistentHashRing) (key : string) (count : Z)
    : result (list string) :=
  if decide (ring r = ∅) then Raise empty_ring_error
  else
    let count :=
      if decide (Z.of_nat (size (nodes r)) < count)
      then Z.of_nat (size (nodes r)) else count in
    let idx := start_index r key in
    get_nodes_loop r idx count (seq 0 (length (sorted_keys r))) [] ∅.

(** [get_all_nodes]: the members, sorted as strings. *)
Definition get_all_nodes (r : ConsistentHashRing) : list string :=
  merge_sort String.le (elements (nodes r)).

(** Histories of the ring: membership calls applied to a new ring. *)
Inductive call : Type :=
| Add (node_id : string)
| Remove (node_id : string).

Definition target (c : call) : string :=
  match c with Add n => n | Remove n => n end.

Definition apply_call (r : ConsistentHashRing) (c : call) : ConsistentHashRing :=
  match c with
  | Add n => add_node r n
  | Remove n => remove_node r n
  end.

Definition run (calls : list call) : ConsistentHashRing :=
  foldl apply_call __init__ calls.

(** No two virtual positions of the nodes named in a history coincide:
    distinct nodes do not share a digest, nor do two virtual keys of one
    node. *)
Definition collision_free (calls : list call) : Prop :=
  NoDup (remove_dups (target <$> calls) ≫= virtual_hashes).

(** The positions met walking the ring from the successor of [h]: those
    above [h] in increasing order, then, wrapping around, the others. *)
Definition successors (r : ConsistentHashRing) (h : Z) : list Z :=
  filter (fun p => h < p) (sorted_keys r) ++ filter (fun p => p <= h) (sorted_keys r).

(** The owners of those positions, in that order. *)
Definition successor_owners (r : ConsistentHashRing) (key : string) : list string :=
  omap (fun p => ring r !! p) (successors r (_hash key)).

(** First occurrences of a list, in order. *)
Fixpoint distinct (seen : gset string) (l : list string) : list string :=
  match l with
  | [] => []
  | x :: l' =>
      if decide (x ∈ seen) then distinct seen l'
      else x :: distinct ({[x]} ∪ seen) l'
  end.

(** The loop of [get_nodes] read over the owners it meets rather than
    over the indices: [acc] grows by each owner not seen yet, and the walk
    stops as soon as [acc] has [count] elements. *)
Fixpoint collect (count : Z) (owners : list string) (acc : list string)
    (seen : gset string) : list string :=
  match owners with
  | [] => acc
  | node_id :: owners' =>
      if decide (node_id ∈ seen) then collect count owners' acc seen
      else
        let acc' := acc ++ [node_id] in
        if decide (Z.of_nat (length acc') = count) then acc'
        else collect count owners' acc' ({[node_id]} ∪ seen)
  end.

(** [k] is where [bisect_right] must land in the sorted list [a]: what
    comes before is at most [x], what comes from there on is above it. *)
Definition insertion_point (a : list Z) (x : Z) (k : nat) : Prop :=
  (k <= length a)%nat
  /\ (forall i v, a !! i = Some v -> (i < k)%nat -> v <= x)
  /\ (forall i v, a !! i = Some v -> (k <= i)%nat -> x < v).

(** What every ring built by the two calls satisfies. *)
Record ring_inv (r : ConsistentHashRing) : Prop := {
  inv_sorted : sorted_keys r = sorted (keys (ring r));
  inv_owner : forall p n, ring r !! p = Some n -> n ∈ nodes r /\ p ∈ virtual_hashes n
}.

(** Every member holds each of its virtual positions: no other member
    took one over. *)
Definition ring_full (r : ConsistentHashRing) : Prop :=
  forall n p, n ∈ nodes r -> p ∈ virtual_hashes n -> ring r !! p = Some n.

(** No two of the virtual positions of the nodes of [U] coincide. *)
Definition distinct_positions (U : list string) : Prop :=
  (forall a, a ∈ U -> NoDup (virtual_hashes a))
  /\ (forall a b p, a ∈ U -> b ∈ U ->
        p ∈ virtual_hashes a -> p ∈ virtual_hashes b -> a = b).

End Hashing.

(** ** [coordinator/coordinator.py]: the registry service *)

Module Coordinator.
Import Py.

(** One entry of [self.nodes]: [{"host": h, "port": p, "last_heartbeat": t}]. *)
Record node_info : Type := {
  host : string;
  port : Z;
  last_heartbeat : Z
}.

Global Instance node_info_eq_dec : EqDecision node_info.
Proof. solve_decision. Defined.

(** The registry: its ring, its liveness table in insertion order, and
    whether [self.lock] is held. *)
Record Coordinator : Type := {
  ring : Hashing.ConsistentHashRing;
  nodes : list (string * node_info);
  lock : bool
}.

Definition __init__ : Coordinator :=
  {| ring := Hashing.__init__; nodes := []; lock := false |}.

(** How a method ends: it returns, it raises, or it waits for ever on a
    lock that is not released. *)
Inductive outcome (A : Type) : Type :=
| Returned (c : Coordinator) (a : A)
| Raised (c : Coordinator) (e : exception)
| Blocked (c : Coordinator).
Global Arguments Returned {A} c a.
Global Arguments Raised {A} c e.
Global Arguments Blocked {A} c.

Definition M (A : Type) : Type := Coordinator -> outcome A.

Definition ret {A} (a : A) : M A := fun c => Returned c a.
Definition raise {A} (e : exception) : M A := fun c => Raised c e.
Definition bind {A B} (m : M A) (k : A -> M B) : M B := fun c =>
  match m c with
  | Returned c' a => k a c'
  | Raised c' e => Raised c' e
  | Blocked c' => Blocked c'
  end.

Notation "x <<- m ;; k" := (bind m (fun x => k))
  (at level 100, m at next level, right associativity).

Definition set_lock (b : bool) (c : Coordinator) : Coordinator :=
  {| ring := ring c; nodes := nodes c; lock := b |}.

(** [with self.lock: body]. [threading.Lock] is not reentrant: acquiring
    it while it is held never returns. It is released however the body is
    left. *)
Definition with_lock {A} (body : M A) : M A := fun c =>
  if lock c then Blocked c
  else
    match body (set_lock true c) with
    | Returned c' a => Returned (set_lock false c') a
    | Raised c' e => Raised (set_lock false c') e
    | Blocked c' => Blocked c'
    end.

(** [try: body except Exception as e: handler e]. *)
Definition try_except {A} (body : M A) (handler : exception -> M A) : M A := fun c =>
  match body c with
  | Raised c' e => handler e c'
  | o => o
  end.

(** [d[k] = v] and [del d[k]] on the insertion-ordered table. *)
Fixpoint dict_set (d : list (string * node_info)) (k : string) (v : node_info)
    : list (string * node_info) :=
  match d with
  | [] => [(k, v)]
  | (k', v') :: d' =>
      if decide (k' = k) then (k, v) :: d' else (k', v') :: dict_set d' k v
  end.

Definition dict_del (d : list (string * node_info)) (k : string)
    : list (string * node_info) :=
  filter (fun kv => kv.1 <> k) d.

Fixpoint dict_get (d : list (string * node_info)) (k : string) : option node_info :=
  match d with
  | [] => None
  | (k', v) :: d' => if decide (k' = k) then Some v else dict_get d' k
  end.

Definition newline : string := String (ascii_of_nat 10) EmptyString.

(** [_register_node]; [now] is what [time.time()] reads. An early
    [return] inside the [with] is the [Some] of the locked part. The
    [int(port)] of the new entry is evaluated before anything is stored. *)
Definition _register_node (host port : string) (now : Z) : M string :=
  let node_id := host +:+ ":" +:+ port in
  early <<- with_lock (fun c =>
    if decide (node_id ∈ (nodes c).*1) then
      Returned c (Some ("WARNING Node " +:+ node_id +:+ " already registered"))
    else
      match int port with
      | None => Raised c (invalid_literal port)
      | Some p =>
          let info := {| host := host; port := p; last_heartbeat := now |} in
          Returned {| ring := Hashing.add_node (ring c) node_id;
                      nodes := dict_set (nodes c) node_id info;
                      lock := lock c |} None
      end) ;;
  match early with
  | Some response => ret response
  | None => ret ("OK Node " +:+ node_id +:+ " registered")
  end.

Definition _unregister_node (host port : string) : M string :=
  let node_id := host +:+ ":" +:+ port in
  early <<- with_lock (fun c =>
    if decide (node_id ∉ (nodes c).*1) then
      Returned c (Some ("ERROR Node " +:+ node_id +:+ " not found"))
    else
      Returned {| ring := Hashing.remove_node (ring c) node_id;
                  nodes := dict_del (nodes c) node_id;
                  lock := lock c |} None) ;;
  match early with
  | Some response => ret response
  | None => ret ("OK Node " +:+ node_id +:+ " unregistered")
  end.

Definition _get_nodes_for_key (key : string) : M string :=
  try_except
    (found <<- with_lock (fun c =>
       match Hashing.get_nodes (ring c) key 3 with
       | Return l => Returned c l
       | Raise e => Raised c e
       end) ;;
     match found with
     | [] => ret "ERROR No nodes available"
     | primary :: replicas =>
         ret (foldl (fun response n => response +:+ newline +:+ "REPLICA " +:+ n)
                    ("PRIMARY " +:+ primary) replicas)
     end)
    (fun e => ret ("ERROR " +:+ str_exception e)).

Definition _list_nodes : M string :=
  with_lock (fun c =>
    match nodes c with
    | [] => Returned c "OK No nodes registered"
    | _ =>
        let response :=
          foldl (fun response node_id => response +:+ "  " +:+ node_id +:+ newline)
                ("OK Nodes:" +:+ newline) (merge_sort String.le (nodes c).*1) in
        Returned c (strip response)
    end).

Definition _process_command (command : string) (now : Z) : M string :=
  let parts := split command in
  match parts with
  | [] => ret "ERROR Invalid command"
  | cmd :: args =>
      if decide (cmd = "REGISTER_NODE") then
        match args with
        | h :: p :: _ => _register_node h p now
        | _ => ret "ERROR Invalid REGISTER_NODE format"      (* len(parts) < 3 *)
        end
      else if decide (cmd = "UNREGISTER_NODE") then
        match args with
        | h :: p :: _ => _unregister_node h p
        | _ => ret "ERROR Invalid UNREGISTER_NODE format"
        end
      else if decide (cmd = "GET_NODES_FOR_KEY") then
        match args with
        | k :: _ => _get_nodes_for_key k
        | _ => ret "ERROR Invalid GET_NODES_FOR_KEY format"  (* len(parts) < 2 *)
        end
      else if decide (cmd = "LIST_NODES") then _list_nodes
      else ret "ERROR Unknown command"
  end.

(** [_handle_client] on the text received: nothing is sent back for an
    empty command, nor when processing raises. *)
Definition _handle_client (received : string) (now : Z) : M (option string) :=
  let data := strip received in
  if decide (data = EmptyString) then ret None
  else
    try_except (response <<- _process_command data now ;; ret (Some response))
               (fun _ => ret None).

(** The entries the sweep finds dead; [clock node_id] is what
    [time.time()] reads when that entry is examined. *)
Definition dead_nodes (clock : string -> Z) (c : Coordinator) : list string :=
  (filter (fun kv => clock kv.1 - last_heartbeat kv.2 > 10) (nodes c)).*1.

(** [for node_id in dead_nodes: host, port = node_id.split(':');
    self._unregister_node(host, port)]. *)
Fixpoint unregister_dead (dead : list string) : M unit :=
  match dead with
  | [] => ret tt
  | node_id :: dead' =>
      match unpack2 (split_on ":" node_id) with
      | Raise e => raise e
      | Return (h, p) => _ <<- _unregister_node h p ;; unregister_dead dead'
      end
  end.

(** One pass of [_heartbeat_loop], after its sleep. Nothing catches what
    a pass raises: the sweeping thread then ends. *)
Definition _heartbeat_loop (clock : string -> Z) : M unit :=
  with_lock (fun c => unregister_dead (dead_nodes clock c) c).

(** What the registry goes through: connections served and sweeps. *)
Inductive event : Type :=
| Connection (received : string) (now : Z)
| Sweep (clock : string -> Z).

Definition state_of {A} (o : outcome A) : Coordinator :=
  match o with
  | Returned c _ => c
  | Raised c _ => c
  | Blocked c => c
  end.

Definition step (c : Coordinator) (ev : event) : Coordinator :=
  match ev with
  | Connection received now => state_of (_handle_client received now c)
  | Sweep clock => state_of (_heartbeat_loop clock c)
  end.

Definition run (evs : list event) : Coordinator := foldl step __init__ evs.

(** What holds of every state the registry goes through: the ring is
    well formed, its members are the registered ids, and the lock is only
    left held with somebody registered. *)
Record coordinator_inv (c : Coordinator) : Prop := {
  inv_ring : Hashing.ring_inv (ring c);
  inv_members : forall n, n ∈ Hashing.nodes (ring c) <-> n ∈ (nodes c).*1;
  inv_lock : lock c = true -> nodes c <> []
}.

End Coordinator.

(** ** [node/node.py]: the storage node *)

Module Node.
Import Py.

(** The node: its id [host:port] and its in-memory store. Each method
    takes and releases [self.lock] around its own access and never calls
    another one while holding it, so the lock is not part of the state. *)
Record Node : Type := {
  node_id : string;
  data : gmap string string
}.

Definition __init__ (host : string) (port : Z) : Node :=
  {| node_id := host +:+ ":" +:+ str_int port; data := ∅ |}.

(** The peers as the node sees them: what a connection to [host:port]
    answers to a command, or [None] when connecting, sending or receiving
    raises. *)
Definition network : Type := string -> Z -> string -> option string.

(** What one turn of the loop of [_replicate_to_nodes] did. *)
Inductive replication : Type :=
| Pushed (host : string) (port : Z) (command response : string)
| Unreachable (host : string) (port : Z) (command : string)
| Malformed (replica_id : string).

Definition with_data (n : Node) (d : gmap string string) : Node :=
  {| node_id := node_id n; data := d |}.

Definition _put (n : Node) (key value : string) : Node :=
  with_data n (<[key := value]> (data n)).

Definition _get (n : Node) (key : string) : option string := data n !! key.

Definition _delete (n : Node) (key : string) : Node :=
  if decide (key ∈ dom (data n)) then with_data n (delete key (data n)) else n.

(** [_replicate_to_nodes]: every exception of a turn is caught in that
    turn; the node itself is not touched. *)
Definition _replicate_to_nodes (net : network) (key value : string)
    (replica_node_ids : list string) : list replication :=
  (fun replica_id =>
     match unpack2 (split_on ":" replica_id) with
     | Raise _ => Malformed replica_id
     | Return (host, port) =>
         match int port with
         | None => Malformed replica_id
         | Some port =>
             let command := "REPLICATE " +:+ key +:+ " " +:+ value in
             match net host port command with
             | Some response => Pushed host port command (strip response)
             | None => Unreachable host port command
             end
         end
     end) <$> replica_node_ids.

(** [_process_command]: the new state, the response and the replication
    turns made. *)
Definition _process_command (net : network) (n : Node) (command : string)
    : Node * string * list replication :=
  let parts := split_max 2 command in
  match parts with
  | [] => (n, "ERROR Invalid command", [])
  | cmd :: _ =>
      if decide (cmd = "PUT") then
        if decide (length parts < 3)%nat then (n, "ERROR Invalid PUT format", [])
        else
          let key := default EmptyString (parts !! 1%nat) in
          let value := default EmptyString (parts !! 2%nat) in
          let n' := _put n key value in
          if decide (3 < length parts)%nat then           (* len(parts) > 3 *)
            let replicas := split_on "," (default EmptyString (parts !! 3%nat)) in
            (n', "OK", _replicate_to_nodes net key value replicas)
          else (n', "OK", [])
      else if decide (cmd = "GET") then
        if decide (length parts < 2)%nat then (n, "ERROR Invalid GET format", [])
        else
          let key := default EmptyString (parts !! 1%nat) in
          match _get n key with
          | Some value => (n, "VALUE " +:+ value, [])
          | None => (n, "NOT_FOUND", [])
          end
      else if decide (cmd = "DELETE") then
        if decide (length parts < 2)%nat then (n, "ERROR Invalid DELETE format", [])
        else
          let key := default EmptyString (parts !! 1%nat) in
          (_delete n key, "OK", [])
      else if decide (cmd = "REPLICATE") then
        if decide (length parts < 3)%nat then (n, "ERROR Invalid REPLICATE format", [])
        else
          let key := default EmptyString (parts !! 1%nat) in
          let value := default EmptyString (parts !! 2%nat) in
          (_put n key value, "OK", [])
      else if decide (cmd = "INFO") then
        (n, "OK Node " +:+ node_id n +:+ " keys=" +:+ str_int (Z.of_nat (size (data n))), [])
      else (n, "ERROR Unknown command", [])
  end.

(** [_handle_client] on the text received: no response to an empty
    command. *)
Definition _handle_client (net : network) (n : Node) (received : string)
    : Node * option string * list replication :=
  let command := strip received in
  if decide (command = EmptyString) then (n, None, [])
  else
    let '(n', response, pushes) := _process_command net n command in
    (n', Some response, pushes).

(** The client's write, as [client.py] sends it. *)
Definition put_command (key value : string) (replicas : list string) : string :=
  match replicas with
  | [] => "PUT " +:+ key +:+ " " +:+ value
  | _ => "PUT " +:+ key +:+ " " +:+ value +:+ " " +:+ join "," replicas
  end.

End Node.

(** ** Concrete rings and registries the properties are exercised on *)

Definition three_nodes : list Hashing.call :=
  [Hashing.Add "node1:5001"; Hashing.Add "node2:5002"; Hashing.Add "node3:5003"].

Definition two_nodes : list Hashing.call :=
  [Hashing.Add "node1:5001"; Hashing.Add "node3:5003"].

(** A registry where [127.0.0.1:5001] registered at time 0. *)
Definition one_registered : Coordinator.Coordinator :=
  Coordinator.run [Coordinator.Connection "REGISTER_NODE 127.0.0.1 5001" 0].

Definition first_entry : Coordinator.node_info :=
  {| Coordinator.host := "127.0.0.1"; Coordinator.port := 5001;
     Coordinator.last_heartbeat := 0 |}.

(** ** [client/client.py]: the client, and how the three services meet *)

Module Client.
Import Py.

(** [s.startswith(prefix)]. *)
Fixpoint startswith (prefix s : string) : bool :=
  match prefix, s with
  | EmptyString, _ => true
  | String a prefix', String b s' => Ascii.eqb a b && startswith prefix' s'
  | String _ _, EmptyString => false
  end.

(** [s[n:]] for [n >= 0]. *)
Fixpoint slice_from (n : nat) (s : string) : string :=
  match n, s with
  | O, _ => s
  | S n', String _ s' => slice_from n' s'
  | S _, EmptyString => EmptyString
  end.

(** The peers as the client sees them: the text a connection to the
    coordinator, or to the node at [host], [port], receives for a command;
    [None] when connecting, sending or receiving raises (a timeout
    included). *)
Definition coordinator_link : Type := string -> option string.
Definition node_link : Type := string -> Z -> string -> option string.

(** A call of [_send_to_node]: the host, the port as text, the command. *)
Definition contact : Type := string * string * string.

(** The dict [{"primary": ..., "replicas": [...]}]. *)
Record nodes_info : Type := {
  primary : string;
  replicas : list string
}.

Definition _send_to_coordinator (coord : coordinator_link) (command : string)
    : option string :=
  strip <$> coord command.

(** One turn of the loop over the lines of the placement answer; the
    state is [result["primary"]] and [result["replicas"]]. *)
Definition parse_line (result : option string * list string) (line : string)
    : option string * list string :=
  match split line with
  | p0 :: p1 :: _ =>                                    (* len(parts) >= 2 *)
      if decide (p0 = "PRIMARY") then (Some p1, result.2)
      else if decide (p0 = "REPLICA") then (result.1, result.2 ++ [p1])
      else result
  | _ => result
  end.

Definition _get_nodes_for_key (coord : coordinator_link) (key : string)
    : option nodes_info :=
  let command := "GET_NODES_FOR_KEY " +:+ key in
  match _send_to_coordinator coord command with
  | None => None
  | Some response =>
      if decide (response = EmptyString) then None
      else if startswith "ERROR" response then None
      else
        let lines := split_on (ascii_of_nat 10) response in
        let result := foldl parse_line (None, []) lines in
        match result.1 with
        | Some p =>
            if decide (p = EmptyString) then None
            else Some {| primary := p; replicas := result.2 |}
        | None => None
        end
  end.

(** [int(port)] is inside the [try]: a port that is not a number gives
    [None] like any failure of the connection. *)
Definition _send_to_node (node : node_link) (host port command : string)
    : option string :=
  match int port with
  | None => None
  | Some p => strip <$> node host p command
  end.

(** The command [put] builds. *)
Definition put_text (key value : string) (replicas : list string) : string :=
  let replicas_str :=
    match replicas with [] => EmptyString | _ => join "," replicas end in
  if decide (replicas_str = EmptyString) then "PUT " +:+ key +:+ " " +:+ value
  else "PUT " +:+ key +:+ " " +:+ value +:+ " " +:+ replicas_str.

(** [put]: what it returns or raises (the unpacking of [primary.split(':')]
    is outside any [try]) and the nodes it contacted. *)
Definition put (coord : coordinator_link) (node : node_link) (key value : string)
    : result bool * list contact :=
  match _get_nodes_for_key coord key with
  | None => (Return false, [])
  | Some info =>
      match unpack2 (split_on ":" (primary info)) with
      | Raise e => (Raise e, [])
      | Return (host, port) =>
          let command := put_text key value (replicas info) in
          let response := _send_to_node node host port command in
          (Return (bool_decide (response = Some "OK")), [(host, port, command)])
      end
  end.

(** [response and response.startswith("VALUE")]. *)
Definition is_value (response : option string) : bool :=
  match response with
  | Some r => bool_decide (r <> EmptyString) && startswith "VALUE" r
  | None => false
  end.

(** [response[6:].strip()]. *)
Definition value_of (response : option string) : string :=
  strip (slice_from 6 (default EmptyString response)).

(** The loop of [get] over the replicas. *)
Fixpoint get_from_replicas (node : node_link) (command : string)
    (replicas : list string) : result (option string) * list contact :=
  match replicas with
  | [] => (Return None, [])
  | replica :: replicas' =>
      match unpack2 (split_on ":" replica) with
      | Raise e => (Raise e, [])
      | Return (host, port) =>
          let response := _send_to_node node host port command in
          if is_value response
          then (Return (Some (value_of response)), [(host, port, command)])
          else
            let (r, contacts) := get_from_replicas node command replicas' in
            (r, (host, port, command) :: contacts)
      end
  end.

Definition get (coord : coordinator_link) (node : node_link) (key : string)
    : result (option string) * list contact :=
  match _get_nodes_for_key coord key with
  | None => (Return None, [])
  | Some info =>
      match unpack2 (split_on ":" (primary info)) with
      | Raise e => (Raise e, [])
      | Return (host, port) =>
          let command := "GET " +:+ key in
          let response := _send_to_node node host port command in
          if is_value response
          then (Return (Some (value_of response)), [(host, port, command)])
          else if bool_decide (response = Some "NOT_FOUND")
          then (Return None, [(host, port, command)])
          else
            let (r, contacts) := get_from_replicas node command (replicas info) in
            (r, (host, port, command) :: contacts)
      end
  end.

Definition delete (coord : coordinator_link) (node : node_link) (key : string)
    : result bool * list contact :=
  match _get_nodes_for_key coord key with
  | None => (Return false, [])
  | Some info =>
      match unpack2 (split_on ":" (primary info)) with
      | Raise e => (Raise e, [])
      | Return (host, port) =>
          let command := "DELETE " +:+ key in
          let response := _send_to_node node host port command in
          (Return (bool_decide (response = Some "OK")), [(host, port, command)])
      end
  end.

End Client.

(** ** The services at the other end of a connection *)

Module Wire.
Import Py.

(** What a client receives from a registry in state [c]: the response
    [_handle_client] sends; nothing (the empty text) when it closes the
    connection without sending; and no answer at all, until the client's
    timeout, when the handler stays blocked. Commands and responses are
    taken to fit the buffers of [recv]. *)
Definition coordinator_answers (c : Coordinator.Coordinator) (now : Z)
    : Client.coordinator_link :=
  fun command =>
    match Coordinator._handle_client command now c with
    | Coordinator.Returned _ (Some response) => Some response
    | Coordinator.Returned _ None => Some EmptyString
    | Coordinator.Raised _ _ => Some EmptyString
    | Coordinator.Blocked _ => None
    end.

(** What a peer receives from a storage node in state [n], whatever its
    address. *)
Definition node_answers (net : Node.network) (n : Node.Node) : Client.node_link :=
  fun _ _ command =>
    match Node._handle_client net n command with
    | (_, Some response, _) => Some response
    | (_, None, _) => Some EmptyString
    end.






End Wire.

(** ** More concrete registries and peers the properties are exercised on *)

(** Two nodes registered one after the other. *)
Definition two_registered : list Coordinator.event :=
  [Coordinator.Connection "REGISTER_NODE 127.0.0.1 5001" 0;
   Coordinator.Connection "REGISTER_NODE 127.0.0.1 5002" 1].

(** One node, registered under a host that holds a colon. *)
Definition odd_registered : list Coordinator.event :=
  [Coordinator.Connection "REGISTER_NODE a:b 80" 0].

(** Peers that cannot be reached. *)
Definition nobody : Node.network := fun _ _ _ => None.

(** A coordinator that names [a:1] as primary and [b:2], [c:3] as
    replicas, and nodes of which [a] is down, [b] answers [NOT_FOUND] and
    [c] answers a value. *)
Definition fixed_placement : Client.coordinator_link :=
  fun _ => Some ("PRIMARY a:1" +:+ Coordinator.newline +:+ "REPLICA b:2"
                 +:+ Coordinator.newline +:+ "REPLICA c:3").

Definition only_last_replica : Client.node_link :=
  fun host _ _ =>
    if decide (host = "c") then Some "VALUE blue"
    else if decide (host = "b") then Some "NOT_FOUND"
    else None.
(** * Properties *)

(** ** The built-ins on known inputs *)

Example split_max_ex1 :
  Py.split_max 2 "a b  c d  " = ["a"; "b"; "c d  "].
Proof. reflexivity. Qed.

Example split_ex1 : Py.split "  REGISTER_NODE  h   5001 " = ["REGISTER_NODE"; "h"; "5001"].
Proof. reflexivity. Qed.

Example split_on_ex1 : Py.split_on ":" "::1:5001" = [EmptyString; EmptyString; "1"; "5001"].
Proof. reflexivity. Qed.

Example int_ex1 : Py.int "1_000" = Some 1000 /\ Py.int "-007" = Some (-7)
  /\ Py.int "1__0" = None /\ Py.int " 12 " = Some 12 /\ Py.int "+" = None.
Proof. repeat split; reflexivity. Qed.

Example str_int_ex1 : Py.str_int 120 = "120" /\ Py.str_int (-5) = "-5" /\ Py.str_int 0 = "0".
Proof. repeat split; reflexivity. Qed.

Example sha256_abc :
  Sha256.digest_int (Sha256.utf8 "abc")
  = 84342368487090800366523834928142263660104883695016514377462985829716817089965.
Proof. vm_compute. reflexivity. Qed.

Example sha256_empty :
  Sha256.digest_int (Sha256.utf8 EmptyString)
  = 102987336249554097029535212322581322789799900648198034993379397001115665086549.
Proof. vm_compute. reflexivity. Qed.

Example sha256_two_blocks :
  Sha256.digest_int (repeat 97 70)
  = 48775393811618265262315185652326444369387663478513489735935697216710973024976.
Proof. vm_compute. reflexivity. Qed.

Example hash_latin1 :
  Hashing._hash (String (ascii_of_nat 233) EmptyString)
  = 33742068448226843528637721690008237849245539311480771078033769055242536000588.
Proof. vm_compute. reflexivity. Qed.

Example hash_virtual_key :
  Hashing._hash (Hashing.virtual_key "node1:5001" 0)
  = 31003253057932776145879311672717752226303009946391465190564416178507734189133.
Proof. vm_compute. reflexivity. Qed.

Example ring_three_nodes :
  Hashing.get_nodes
    (Hashing.run [Hashing.Add "node1:5001"; Hashing.Add "node2:5002"; Hashing.Add "node3:5003"])
    "user:42" 3
  = Py.Return ["node3:5003"; "node2:5002"; "node1:5001"].
Proof. vm_compute. reflexivity. Qed.

Example node_put_get :
  let net : Node.network := fun _ _ _ => Some "OK" in
  let n0 := Node.__init__ "127.0.0.1" 5001 in
  let '(n1, r1, _) := Node._process_command net n0 "PUT color dark blue" in
  let '(_, r2, _) := Node._process_command net n1 "GET color" in
  let '(_, r3, _) := Node._process_command net n1 "INFO" in
  r1 = "OK" /\ r2 = "VALUE dark blue" /\ r3 = "OK Node 127.0.0.1:5001 keys=1".
Proof. vm_compute. repeat split. Qed.

Example coordinator_session :
  let c := Coordinator.run
             [Coordinator.Connection "REGISTER_NODE node1 5001" 0;
              Coordinator.Connection "REGISTER_NODE node2 5002" 1;
              Coordinator.Connection "UNREGISTER_NODE node1 5001" 2] in
  (Coordinator.nodes c).*1 = ["node2:5002"]
  /\ Coordinator._handle_client "GET_NODES_FOR_KEY user:42" 3 c
     = Coordinator.Returned c (Some "PRIMARY node2:5002")
  /\ Coordinator._handle_client "LIST_NODES" 3 c
     = Coordinator.Returned c
         (Some ("OK Nodes:" +:+ Coordinator.newline +:+ "  node2:5002")).
Proof. vm_compute. repeat split. Qed.

(** ** Splitting a command into its fields *)

Section PyFacts.
Import Py.

Lemma append_cons c s t : String c s +:+ t = String c (s +:+ t).
Proof. reflexivity. Qed.

Lemma append_nil t : EmptyString +:+ t = t.
Proof. reflexivity. Qed.

Lemma token_cons c s :
  token (String c s) -> isspace c = false /\ (s = EmptyString \/ token s).
Proof.
  intros [_ Hall]. split.
  - apply Hall. now left.
  - destruct s as [|c' s']; [now left | right]. split; [discriminate |].
    intros d Hd. apply Hall. now right.
Qed.

Lemma token_payload s : token s -> payload s.
Proof.
  destruct s as [|c s']; intros Ht.
  - now destruct Ht.
  - exists c, s'. split; [reflexivity |]. now apply token_cons in Ht.
Qed.

Lemma lstrip_payload s : payload s -> lstrip s = s.
Proof. intros (c & s' & -> & Hc). unfold lstrip. cbn [lstrip_by]. now rewrite Hc. Qed.

(** A word followed by white space is cut right before it. *)
Lemma take_word_token w c rest :
  token w -> isspace c = true ->
  take_word (w +:+ String c rest) = (w, String c rest).
Proof.
  induction w as [|d w IH]; intros Ht Hc.
  - now destruct Ht.
  - apply token_cons in Ht as [Hd [-> | Ht]].
    + rewrite append_cons, append_nil. simpl. now rewrite Hd, Hc.
    + rewrite append_cons. simpl. rewrite Hd, IH by assumption. reflexivity.
Qed.

Lemma take_word_all w : token w -> take_word w = (w, EmptyString).
Proof.
  induction w as [|d w IH]; intros Ht.
  - now destruct Ht.
  - apply token_cons in Ht as [Hd [-> | Ht]]; simpl; rewrite Hd.
    + reflexivity.
    + now rewrite IH.
Qed.

Lemma split_max_empty n : split_max n EmptyString = [].
Proof. now destruct n. Qed.

Lemma split_max_space n c s : isspace c = true -> split_max n (String c s) = split_max n s.
Proof.
  intros Hc. destruct n; unfold split_max; fold split_max;
    unfold lstrip; cbn [lstrip_by]; now rewrite Hc.
Qed.

Lemma split_max_S n s :
  payload s ->
  split_max (S n) s = (take_word s).1 :: split_max n (take_word s).2.
Proof.
  intros (c & s' & -> & Hc). unfold split_max; fold split_max.
  unfold lstrip. cbn [lstrip_by]. rewrite Hc. cbn [take_word]. rewrite Hc.
  destruct (take_word s'); reflexivity.
Qed.

Lemma split_max_token n w c rest :
  token w -> isspace c = true ->
  split_max (S n) (w +:+ String c rest) = w :: split_max n rest.
Proof.
  intros Ht Hc.
  assert (Hp : payload (w +:+ String c rest)).
  { destruct (token_payload _ Ht) as (d & w' & -> & Hd).
    exists d, (w' +:+ String c rest). now rewrite append_cons. }
  rewrite (split_max_S _ _ Hp), take_word_token by assumption.
  simpl. now rewrite split_max_space.
Qed.

Lemma split_max_last n w : token w -> split_max (S n) w = [w].
Proof.
  intros Ht. rewrite (split_max_S _ _ (token_payload _ Ht)).
  rewrite take_word_all by assumption. simpl. now rewrite split_max_empty.
Qed.

Lemma split_max_rest v : payload v -> split_max 0 v = [v].
Proof.
  intros (c & s' & -> & Hc). unfold split_max, lstrip. cbn [lstrip_by].
  now rewrite Hc.
Qed.

(** [split(maxsplit=n)] yields at most [n + 1] fields. *)
Lemma split_max_length n s : (length (split_max n s) <= S n)%nat.
Proof.
  revert s. induction n as [|n IH]; intros s; simpl.
  - destruct (lstrip s); simpl; lia.
  - destruct (lstrip s) as [|c t]; simpl; [lia |].
    destruct (isspace c); [simpl; specialize (IH (String c t)); lia |].
    destruct (take_word t) as [w r]. simpl. specialize (IH r). lia.
Qed.

(** Tokens joined by single spaces split back into themselves. *)
Lemma split_max_join n ws :
  Forall token ws -> (length ws <= n)%nat -> split_max n (join " " ws) = ws.
Proof.
  revert n. induction ws as [|w ws IH]; intros n Hall Hn.
  - apply split_max_empty.
  - apply Forall_cons in Hall as [Hw Hall].
    destruct n as [|n]; [simpl in Hn; lia |].
    destruct ws as [|w' ws'].
    + now apply split_max_last.
    + change (join " " (w :: w' :: ws')) with (w +:+ String " " (join " " (w' :: ws'))).
      rewrite split_max_token by (assumption || reflexivity).
      f_equal. apply IH; [assumption | simpl in *; lia].
Qed.

Lemma length_append s t : String.length (s +:+ t) = (String.length s + String.length t)%nat.
Proof. induction s as [|c s IH]; simpl; [reflexivity | now rewrite IH]. Qed.

Lemma join_length ws :
  Forall token ws -> (length ws <= String.length (join " " ws))%nat.
Proof.
  induction ws as [|w ws IH]; intros Hall; [simpl; lia |].
  apply Forall_cons in Hall as [Hw Hall]. specialize (IH Hall).
  assert (1 <= String.length w)%nat.
  { destruct w; [now destruct Hw | simpl; lia]. }
  destruct ws as [|w' ws']; [simpl; lia |].
  change (join " " (w :: w' :: ws')) with (w +:+ String " " (join " " (w' :: ws'))).
  rewrite length_append. simpl in *. lia.
Qed.

Lemma split_join ws : Forall token ws -> split (join " " ws) = ws.
Proof.
  intros Hall. unfold split. apply split_max_join; [assumption |].
  now apply join_length.
Qed.

Lemma lstrip_length s : (String.length (lstrip s) <= String.length s)%nat.
Proof.
  unfold lstrip. induction s as [|c s IH]; cbn [lstrip_by]; [lia |].
  destruct (isspace c); simpl in *; lia.
Qed.

Lemma take_word_length s :
  (String.length (take_word s).2 <= String.length s)%nat.
Proof.
  induction s as [|c s IH]; cbn [take_word]; [simpl; lia |].
  destruct (isspace c); [simpl; lia |].
  destruct (take_word s) as [w r]. simpl in *. lia.
Qed.

(** Once the bound on the number of fields is at least the length of the
    string, raising it changes nothing: [split] is [split(maxsplit=n)] for
    every such [n]. *)
Lemma split_max_enough n m s :
  (String.length s <= n)%nat -> (String.length s <= m)%nat ->
  split_max n s = split_max m s.
Proof.
  revert m s. induction n as [|n IH]; intros m s Hn Hm.
  - destruct s; [| simpl in Hn; lia]. now rewrite !split_max_empty.
  - pose proof (lstrip_length s) as Hl.
    destruct m as [|m].
    + destruct s; [| simpl in Hm; lia]. now rewrite !split_max_empty.
    + cbn [split_max]. destruct (lstrip s) as [|c t] eqn:Hs; [reflexivity |].
      cbn [take_word]. destruct (isspace c) eqn:Hc.
      * exfalso. clear -Hs Hc. unfold lstrip in Hs.
        induction s as [|d s IHs]; cbn [lstrip_by] in Hs; [discriminate |].
        destruct (isspace d) eqn:Hd; [auto | congruence].
      * pose proof (take_word_length t) as Ht.
        destruct (take_word t) as [w r]. f_equal.
        simpl in *. apply IH; lia.
Qed.

Lemma split_unbounded n s : (String.length s <= n)%nat -> split s = split_max n s.
Proof. intros Hn. unfold split. now apply split_max_enough. Qed.

Lemma rstrip_token w : token w -> rstrip_by isspace w = w.
Proof.
  induction w as [|c w IH]; intros Ht; [reflexivity |].
  apply token_cons in Ht as [Hc [-> | Ht]]; cbn [rstrip_by].
  - now rewrite Hc.
  - rewrite IH by assumption. destruct w; [now destruct Ht | reflexivity].
Qed.

Lemma rstrip_app_token s w : token w -> rstrip_by isspace (s +:+ w) = s +:+ w.
Proof.
  intros Ht. induction s as [|c s IH]; [now apply rstrip_token |].
  rewrite append_cons. cbn [rstrip_by]. rewrite IH.
  destruct (s +:+ w) eqn:Heq; [| reflexivity].
  destruct s; [| discriminate]. rewrite append_nil in Heq. subst. now destruct Ht.
Qed.

(** A command that starts with its verb and ends with a field is what
    [strip] leaves of it. *)
Lemma strip_command v w : payload v -> token w -> strip (v +:+ w) = v +:+ w.
Proof.
  intros (c & v' & -> & Hc) Ht. unfold strip.
  rewrite lstrip_payload by (exists c, (v' +:+ w); now rewrite append_cons).
  now apply rstrip_app_token.
Qed.

End PyFacts.

Ltac solve_token :=
  split; [discriminate | intros ? Hin; simpl in Hin; intuition (subst; reflexivity)].

(** ** The storage node *)

Section NodeFacts.
Import Py Node.
Variable net : network.

Lemma fields_put key value :
  token key -> payload value ->
  split_max 2 ("PUT " +:+ key +:+ " " +:+ value) = ["PUT"; key; value].
Proof.
  intros Hk Hv.
  change ("PUT " +:+ key +:+ " " +:+ value)
    with ("PUT" +:+ String " " (key +:+ String " " value)).
  rewrite split_max_token by (solve_token || reflexivity).
  rewrite split_max_token by (assumption || reflexivity).
  now rewrite split_max_rest.
Qed.

Lemma fields_key verb key :
  token verb -> token key ->
  split_max 2 (verb +:+ " " +:+ key) = [verb; key].
Proof.
  intros Hverb Hk.
  change (verb +:+ " " +:+ key) with (verb +:+ String " " key).
  rewrite split_max_token by (assumption || reflexivity).
  now rewrite split_max_last.
Qed.

Lemma process_put n key value :
  token key -> payload value ->
  _process_command net n ("PUT " +:+ key +:+ " " +:+ value)
  = (_put n key value, "OK", []).
Proof.
  intros Hk Hv. unfold _process_command. rewrite fields_put by assumption.
  reflexivity.
Qed.

Lemma process_get n key :
  token key ->
  _process_command net n ("GET " +:+ key)
  = (n, match _get n key with
        | Some value => "VALUE " +:+ value
        | None => "NOT_FOUND"
        end, []).
Proof.
  intros Hk. unfold _process_command.
  change ("GET " +:+ key) with ("GET" +:+ " " +:+ key).
  rewrite fields_key by (solve_token || assumption). simpl.
  now destruct (_get n key).
Qed.

Lemma process_delete n key :
  token key ->
  _process_command net n ("DELETE " +:+ key) = (_delete n key, "OK", []).
Proof.
  intros Hk. unfold _process_command.
  change ("DELETE " +:+ key) with ("DELETE" +:+ " " +:+ key).
  rewrite fields_key by (solve_token || assumption). reflexivity.
Qed.

Lemma get_after_put n key value : _get (_put n key value) key = Some value.
Proof. unfold _get, _put. simpl. apply lookup_insert_eq. Qed.

Lemma get_after_delete n key : _get (_delete n key) key = None.
Proof.
  unfold _get, _delete. destruct (decide (key ∈ dom (data n))) as [Hin | Hin]; simpl.
  - apply lookup_delete_eq.
  - now apply not_elem_of_dom.
Qed.

(** What the node does with the write the client sends when the registry
    named replicas: the list ends up inside the stored value. *)
Lemma process_put_with_replicas n key value r replicas :
  token key -> payload value ->
  _process_command net n (put_command key value (r :: replicas))
  = (_put n key (value +:+ " " +:+ join "," (r :: replicas)), "OK", []).
Proof.
  intros Hk Hv. unfold put_command. apply process_put; [assumption |].
  destruct Hv as (c & v' & -> & Hc).
  exists c, (v' +:+ " " +:+ join "," (r :: replicas)). now split.
Qed.

(** C1 (as the code has it): no command makes [_process_command] push
    anything. The fields come from [split(maxsplit=2)], so there are never
    more than three of them and the branch that calls [_replicate_to_nodes]
    is dead; on the client's [PUT a 1 nodeX:9] the node stores the value
    [1 nodeX:9] under [a], answers [OK] and contacts nobody. *)
Theorem put_never_replicates :
  (forall n command, (_process_command net n command).2 = [])
  /\ _process_command net (__init__ "127.0.0.1" 5001) (put_command "a" "1" ["nodeX:9"])
     = ({| node_id := "127.0.0.1:5001"; data := {["a" := "1 nodeX:9"]} |}, "OK", []).
Proof.
  split.
  - intros n command. unfold _process_command.
    pose proof (split_max_length 2 command) as Hlen.
    destruct (split_max 2 command) as [|cmd rest]; [reflexivity |].
    repeat case_decide; try reflexivity; try lia.
    now destruct (_get n _).
  - rewrite (process_put_with_replicas _ "a" "1" "nodeX:9" []).
    + reflexivity.
    + solve_token.
    + exists "1"%char, EmptyString. now split.
Qed.

(** C7. Round trip on one node: after [PUT key value], [GET key] answers
    the value; after [DELETE key] it answers not-found; [DELETE] answers
    [OK] both when the key is there and when it is not. The key is a field
    of the protocol (no white space) and the value a last field. *)
Theorem put_get_delete_round_trip (n : Node) (key value : string) :
  token key -> payload value ->
  let '(n1, r1, _) := _process_command net n ("PUT " +:+ key +:+ " " +:+ value) in
  let '(n2, r2, _) := _process_command net n1 ("GET " +:+ key) in
  let '(n3, r3, _) := _process_command net n2 ("DELETE " +:+ key) in
  let '(n4, r4, _) := _process_command net n3 ("GET " +:+ key) in
  let '(n5, r5, _) := _process_command net n4 ("DELETE " +:+ key) in
  r1 = "OK" /\ r2 = "VALUE " +:+ value /\ r3 = "OK" /\ r4 = "NOT_FOUND" /\ r5 = "OK"
  /\ _get n1 key = Some value /\ _get n3 key = None /\ n5 = n3.
Proof.
  intros Hk Hv.
  rewrite process_put, process_get, process_delete, process_get, process_delete
    by assumption.
  rewrite get_after_put, !get_after_delete.
  repeat split; try reflexivity.
  unfold _delete at 1. destruct (decide (key ∈ _)) as [Hin | Hin]; [| reflexivity].
  apply elem_of_dom in Hin as [v Hv']. fold (_get (_delete (_put n key value) key) key) in Hv'.
  rewrite get_after_delete in Hv'. discriminate.
Qed.

End NodeFacts.

Lemma put_get_delete_round_trip_witness :
  let net : Node.network := fun _ _ _ => None in
  let n := Node.__init__ "127.0.0.1" 5001 in
  Py.token "color" /\ Py.payload "dark blue"
  /\ (let '(n1, r1, _) := Node._process_command net n ("PUT " +:+ "color" +:+ " " +:+ "dark blue") in
      let '(n2, r2, _) := Node._process_command net n1 ("GET " +:+ "color") in
      let '(n3, r3, _) := Node._process_command net n2 ("DELETE " +:+ "color") in
      let '(n4, r4, _) := Node._process_command net n3 ("GET " +:+ "color") in
      let '(n5, r5, _) := Node._process_command net n4 ("DELETE " +:+ "color") in
      r1 = "OK" /\ r2 = "VALUE " +:+ "dark blue" /\ r3 = "OK" /\ r4 = "NOT_FOUND"
      /\ r5 = "OK"
      /\ Node._get n1 "color" = Some "dark blue" /\ Node._get n3 "color" = None /\ n5 = n3).
Proof.
  intros net n.
  assert (Ht : Py.token "color") by solve_token.
  assert (Hp : Py.payload "dark blue") by (exists "d"%char, "ark blue"; now split).
  split; [exact Ht | split; [exact Hp |]].
  exact (put_get_delete_round_trip net n "color" "dark blue" Ht Hp).
Defined.

(** ** The hash ring: what the two membership calls do to the state *)

Section RingState.
Import Py Hashing.
Implicit Types (r : ConsistentHashRing) (d : gmap Z string).

Lemma lookup_insert_all d (x : string) (hs : list Z) p :
  foldl (fun d h => <[h := x]> d) d hs !! p
  = if decide (p ∈ hs) then Some x else d !! p.
Proof.
  revert d. induction hs as [|h hs IH]; intros d.
  - destruct (decide (p ∈ [])) as [Hin | _]; [inversion Hin | reflexivity].
  - cbn [foldl]. rewrite IH.
    destruct (decide (p ∈ hs)) as [Hin | Hin];
      destruct (decide (p ∈ h :: hs)) as [Hin' | Hin']; try reflexivity.
    + exfalso. apply Hin'. now right.
    + apply elem_of_cons in Hin' as [-> | ?]; [| contradiction].
      apply lookup_insert_eq.
    + apply lookup_insert_ne. intros ->. apply Hin'. now left.
Qed.

Lemma lookup_delete_all d (hs : list Z) p :
  foldl (fun d h => delete h d) d hs !! p
  = if decide (p ∈ hs) then None else d !! p.
Proof.
  revert d. induction hs as [|h hs IH]; intros d.
  - destruct (decide (p ∈ [])) as [Hin | _]; [inversion Hin | reflexivity].
  - cbn [foldl]. rewrite IH.
    destruct (decide (p ∈ hs)) as [Hin | Hin];
      destruct (decide (p ∈ h :: hs)) as [Hin' | Hin']; try reflexivity.
    + exfalso. apply Hin'. now right.
    + apply elem_of_cons in Hin' as [-> | ?]; [| contradiction].
      apply lookup_delete_eq.
    + apply lookup_delete_ne. intros ->. apply Hin'. now left.
Qed.

Lemma elem_of_owned d (x : string) p :
  p ∈ (filter (fun hn => hn.2 = x) (map_to_list d)).*1 <-> d !! p = Some x.
Proof.
  rewrite list_elem_of_fmap. split.
  - intros ([h n] & -> & Hin). apply list_elem_of_filter in Hin as [Hn Hin].
    simpl in *. subst. now apply elem_of_map_to_list.
  - intros Hp. exists (p, x). split; [reflexivity |].
    apply list_elem_of_filter. split; [reflexivity |].
    now apply elem_of_map_to_list.
Qed.

(** [add_node] on a new member: its positions now belong to it, the
    others are as before. *)
Lemma ring_add_node r x p :
  x ∉ nodes r ->
  ring (add_node r x) !! p
  = if decide (p ∈ virtual_hashes x) then Some x else ring r !! p.
Proof.
  intros Hx. unfold add_node.
  destruct (decide (x ∈ nodes r)); [contradiction |]. apply lookup_insert_all.
Qed.

(** [remove_node] on a member: the positions it owns are gone, the others
    are as before. *)
Lemma ring_remove_node r x p :
  x ∈ nodes r ->
  ring (remove_node r x) !! p
  = if decide (ring r !! p = Some x) then None else ring r !! p.
Proof.
  intros Hx. unfold remove_node.
  destruct (decide (x ∉ nodes r)); [contradiction |]. cbn [ring].
  rewrite lookup_delete_all.
  destruct (decide (p ∈ _)) as [Hin | Hin];
    destruct (decide (ring r !! p = Some x)) as [Hp | Hp]; try reflexivity.
  - exfalso. now apply Hp, elem_of_owned.
  - exfalso. now apply Hin, elem_of_owned.
Qed.

Lemma nodes_add_node r x : nodes (add_node r x) = {[x]} ∪ nodes r.
Proof.
  unfold add_node. destruct (decide (x ∈ nodes r)) as [Hx | Hx]; [| reflexivity].
  apply set_eq. intros y. rewrite elem_of_union, elem_of_singleton.
  split; [tauto | intros [-> | Hy]; assumption].
Qed.

Lemma nodes_remove_node r x : nodes (remove_node r x) = nodes r ∖ {[x]}.
Proof.
  unfold remove_node. destruct (decide (x ∉ nodes r)) as [Hx | Hx]; [| reflexivity].
  apply set_eq. intros y. rewrite elem_of_difference, elem_of_singleton.
  split; [| tauto]. intros Hy. split; [assumption | intros ->; contradiction].
Qed.

Lemma add_node_member r x : x ∈ nodes r -> add_node r x = r.
Proof. intros Hx. unfold add_node. now case_decide. Qed.

Lemma remove_node_absent r x : x ∉ nodes r -> remove_node r x = r.
Proof. intros Hx. unfold remove_node. now case_decide. Qed.

Lemma sorted_keys_add_node r x :
  x ∉ nodes r -> sorted_keys (add_node r x) = sorted (keys (ring (add_node r x))).
Proof. intros Hx. unfold add_node. now case_decide. Qed.

Lemma sorted_keys_remove_node r x :
  x ∈ nodes r -> sorted_keys (remove_node r x) = sorted (keys (ring (remove_node r x))).
Proof. intros Hx. unfold remove_node. now case_decide. Qed.

(** C9. Idempotent membership: a second [add_node x] leaves the state
    (members, slots and ordered positions) as the first one made it, and
    so does a second [remove_node x]. *)
Theorem membership_idempotent r x :
  add_node (add_node r x) x = add_node r x
  /\ remove_node (remove_node r x) x = remove_node r x.
Proof.
  split.
  - apply add_node_member. rewrite nodes_add_node.
    apply elem_of_union. left. now apply elem_of_singleton.
  - apply remove_node_absent. rewrite nodes_remove_node.
    intros [_ Hx]%elem_of_difference. apply Hx. now apply elem_of_singleton.
Qed.

(** *** The invariants of a ring *)

Lemma ring_inv_init : ring_inv __init__.
Proof. split; [reflexivity |]. intros p n H. simpl in H. now rewrite lookup_empty in H. Qed.

Lemma ring_inv_add_node r x : ring_inv r -> ring_inv (add_node r x).
Proof.
  intros [Hs Ho]. destruct (decide (x ∈ nodes r)) as [Hx | Hx].
  - rewrite add_node_member by assumption. now split.
  - split; [now apply sorted_keys_add_node |].
    intros p n. rewrite ring_add_node, nodes_add_node by assumption.
    destruct (decide (p ∈ virtual_hashes x)) as [Hp | Hp].
    + intros [= <-]. split; [| assumption].
      apply elem_of_union. left. now apply elem_of_singleton.
    + intros Hn. destruct (Ho _ _ Hn). split; [| assumption].
      apply elem_of_union. now right.
Qed.

Lemma ring_inv_remove_node r x : ring_inv r -> ring_inv (remove_node r x).
Proof.
  intros [Hs Ho]. destruct (decide (x ∈ nodes r)) as [Hx | Hx].
  - split; [now apply sorted_keys_remove_node |].
    intros p n. rewrite ring_remove_node, nodes_remove_node by assumption.
    destruct (decide (ring r !! p = Some x)) as [Hp | Hp]; [discriminate |].
    intros Hn. destruct (Ho _ _ Hn). split; [| assumption].
    apply elem_of_difference. split; [assumption |].
    intros ->%elem_of_singleton. contradiction.
  - rewrite remove_node_absent by assumption. now split.
Qed.

Lemma ring_inv_run calls : ring_inv (run calls).
Proof.
  unfold run. induction calls as [|c calls IH] using rev_ind.
  - apply ring_inv_init.
  - rewrite foldl_snoc. destruct c; simpl.
    + now apply ring_inv_add_node.
    + now apply ring_inv_remove_node.
Qed.

Lemma ring_full_add_node U r x :
  distinct_positions U -> x ∈ U -> (forall n, n ∈ nodes r -> n ∈ U) ->
  ring_full r -> ring_full (add_node r x).
Proof.
  intros [_ Hinj] HxU Hsub Hfull. destruct (decide (x ∈ nodes r)) as [Hx | Hx].
  - now rewrite add_node_member.
  - intros n p. rewrite nodes_add_node, ring_add_node by assumption.
    intros Hn Hp. destruct (decide (p ∈ virtual_hashes x)) as [Hpx | Hpx].
    + f_equal. apply elem_of_union in Hn as [->%elem_of_singleton | Hn]; [reflexivity |].
      eapply Hinj; eauto.
    + apply elem_of_union in Hn as [->%elem_of_singleton | Hn]; [contradiction |].
      now apply Hfull.
Qed.

Lemma ring_full_remove_node r x : ring_full r -> ring_full (remove_node r x).
Proof.
  intros Hfull. destruct (decide (x ∈ nodes r)) as [Hx | Hx].
  - intros n p. rewrite nodes_remove_node, ring_remove_node by assumption.
    intros [Hn Hne]%elem_of_difference Hp.
    rewrite (Hfull n p Hn Hp).
    destruct (decide (Some n = Some x)) as [Heq | _]; [| reflexivity].
    injection Heq as ->. exfalso. apply Hne. now apply elem_of_singleton.
  - now rewrite remove_node_absent.
Qed.

Lemma collision_free_distinct calls :
  collision_free calls -> distinct_positions (target <$> calls).
Proof.
  unfold collision_free. intros Hnd.
  assert (Hmem : forall a, a ∈ target <$> calls -> a ∈ remove_dups (target <$> calls))
    by (intros a; apply elem_of_remove_dups).
  split.
  - intros a Ha. apply Hmem in Ha. revert Hnd Ha.
    generalize (remove_dups (target <$> calls)). intros l.
    induction l as [|b l IH]; intros Hnd Ha; [inversion Ha |].
    rewrite bind_cons in Hnd. apply NoDup_app in Hnd as (Hb & _ & Hl).
    apply elem_of_cons in Ha as [-> | Ha]; auto.
  - intros a b p Ha Hb Hpa Hpb. apply Hmem in Ha, Hb. revert Hnd Ha Hb.
    generalize (remove_dups (target <$> calls)). intros l.
    induction l as [|c l IH]; intros Hnd Ha Hb; [inversion Ha |].
    rewrite bind_cons in Hnd. apply NoDup_app in Hnd as (_ & Hdisj & Hl).
    apply elem_of_cons in Ha as [-> | Ha];
      apply elem_of_cons in Hb as [-> | Hb]; auto.
    + exfalso. apply (Hdisj p Hpa). apply list_elem_of_bind. eauto.
    + exfalso. apply (Hdisj p Hpb). apply list_elem_of_bind. eauto.
Qed.

Lemma ring_full_run calls :
  collision_free calls ->
  ring_full (run calls) /\ (forall n, n ∈ nodes (run calls) -> n ∈ target <$> calls).
Proof.
  intros Hd%collision_free_distinct. revert Hd. generalize (eq_refl (target <$> calls)).
  generalize (target <$> calls) at 1 3 4. intros U HU Hd.
  assert (Hsub : forall c, c ∈ calls -> target c ∈ U).
  { intros c Hc. rewrite HU. now apply list_elem_of_fmap_2. }
  clear HU. unfold run. induction calls as [|c calls IH] using rev_ind.
  - split; [intros n p Hn | intros n Hn]; simpl in Hn; now apply not_elem_of_empty in Hn.
  - rewrite foldl_snoc. destruct IH as [Hfull Hin].
    { intros c' Hc'. apply Hsub. apply elem_of_app. now left. }
    assert (HcU : target c ∈ U) by (apply Hsub, elem_of_app; right; now left).
    destruct c as [x | x]; simpl in *.
    + split; [now apply (ring_full_add_node U) |].
      intros n. rewrite nodes_add_node.
      intros [->%elem_of_singleton | Hn]%elem_of_union; auto.
    + split; [now apply ring_full_remove_node |].
      intros n. rewrite nodes_remove_node. intros [Hn _]%elem_of_difference. auto.
Qed.

End RingState.

(** ** Sorted positions and the binary search *)

Section SortedFacts.
Import Py Hashing.

Lemma sorted_perm l : sorted l ≡ₚ l.
Proof. apply merge_sort_Permutation. Qed.

Lemma sorted_increasing l : StronglySorted Z.le (sorted l).
Proof. apply StronglySorted_merge_sort; apply _. Qed.

Lemma StronglySorted_filter (P : Z -> Prop) `{!forall p, Decision (P p)} l :
  StronglySorted Z.le l -> StronglySorted Z.le (filter P l).
Proof.
  induction 1 as [|p l Hl IH Hp]; [constructor |].
  rewrite filter_cons. destruct (decide (P p)); [| assumption].
  constructor; [assumption |].
  apply Forall_forall. intros q [_ Hq]%list_elem_of_filter.
  rewrite Forall_forall in Hp. auto.
Qed.

Lemma elem_of_keys (d : gmap Z string) p : p ∈ keys d <-> is_Some (d !! p).
Proof.
  unfold keys. rewrite list_elem_of_fmap. split.
  - intros ([q n] & -> & Hin). apply elem_of_map_to_list in Hin. now exists n.
  - intros [n Hn]. exists (p, n). split; [reflexivity |].
    now apply elem_of_map_to_list.
Qed.

Lemma NoDup_keys (d : gmap Z string) : NoDup (keys d).
Proof. apply NoDup_fst_map_to_list. Qed.

Lemma elem_of_sorted_keys (d : gmap Z string) p :
  p ∈ sorted (keys d) <-> is_Some (d !! p).
Proof. now rewrite sorted_perm, elem_of_keys. Qed.

Lemma NoDup_sorted_keys (d : gmap Z string) : NoDup (sorted (keys d)).
Proof. rewrite sorted_perm. apply NoDup_keys. Qed.

Lemma length_sorted_keys (d : gmap Z string) : length (sorted (keys d)) = size d.
Proof.
  rewrite sorted_perm. unfold keys. rewrite length_fmap. apply length_map_to_list.
Qed.

(** Dropping the keys that fail [P] from a dict drops them from its sorted
    key list, keeping the order of the others. *)
Lemma sorted_keys_filter (P : Z -> Prop) `{!forall p, Decision (P p)}
    (d d' : gmap Z string) :
  (forall p, is_Some (d' !! p) <-> is_Some (d !! p) /\ P p) ->
  sorted (keys d') = filter P (sorted (keys d)).
Proof.
  intros Hsub. apply (StronglySorted_unique Z.le).
  - apply sorted_increasing.
  - apply StronglySorted_filter, sorted_increasing.
  - apply NoDup_Permutation.
    + apply NoDup_sorted_keys.
    + apply NoDup_filter, NoDup_sorted_keys.
    + intros p. rewrite list_elem_of_filter, !elem_of_sorted_keys, Hsub. tauto.
Qed.

Lemma sorted_lookup_le l i j vi vj :
  StronglySorted Z.le l -> l !! i = Some vi -> l !! j = Some vj ->
  (i <= j)%nat -> vi <= vj.
Proof.
  intros Hl. revert i j. induction Hl as [|p l Hl IH Hp]; intros i j Hi Hj Hij.
  - now rewrite lookup_nil in Hi.
  - destruct i as [|i], j as [|j]; simpl in *; try lia.
    + injection Hi as ->. injection Hj as ->. lia.
    + injection Hi as ->. rewrite Forall_forall in Hp.
      apply Hp. eapply list_elem_of_lookup_2; eauto.
    + eapply IH; eauto. lia.
Qed.

(** The loop of [bisect_right] keeps what is known on both sides of the
    interval and ends, within its fuel, on the insertion point. *)
Lemma bisect_loop_spec fuel a x lo hi :
  StronglySorted Z.le a ->
  (hi - lo <= fuel)%nat -> (lo <= hi)%nat -> (hi <= length a)%nat ->
  (forall i v, a !! i = Some v -> (i < lo)%nat -> v <= x) ->
  (forall i v, a !! i = Some v -> (hi <= i)%nat -> x < v) ->
  insertion_point a x (bisect_loop fuel a x lo hi).
Proof.
  intros Ha. revert lo hi. induction fuel as [|fuel IH]; intros lo hi Hf Hle Hhi Hlo Hup.
  - cbn [bisect_loop]. assert (lo = hi) by lia. subst.
    repeat split; try lia; assumption.
  - cbn [bisect_loop]. destruct (decide (lo < hi)%nat) as [Hlt | Hge].
    + pose proof (Nat.div_mod_eq (lo + hi) 2) as Hdm.
      pose proof (Nat.mod_upper_bound (lo + hi) 2 ltac:(lia)) as Hmod.
      set (mid := ((lo + hi) / 2)%nat) in *.
      assert (Hmid : (lo <= mid < hi)%nat) by lia.
      destruct (a !! mid) as [v|] eqn:Hv.
      * destruct (decide (x < v)) as [Hxv | Hxv].
        -- apply IH; try lia; [assumption |].
           intros i w Hw Hi. pose proof (sorted_lookup_le a mid i v w Ha Hv Hw Hi). lia.
        -- apply IH; try lia; [| assumption].
           intros i w Hw Hi.
           pose proof (sorted_lookup_le a i mid w v Ha Hw Hv ltac:(lia)). lia.
      * apply lookup_ge_None in Hv. lia.
    + assert (lo = hi) by lia. subst. repeat split; try lia; assumption.
Qed.

Lemma bisect_right_spec a x :
  StronglySorted Z.le a -> insertion_point a x (bisect_right a x).
Proof.
  intros Ha. unfold bisect_right. apply bisect_loop_spec; try lia; try assumption.
  intros i v Hv Hi. apply lookup_lt_Some in Hv. lia.
Qed.

Lemma filter_all (P : Z -> Prop) `{!forall p, Decision (P p)} (l : list Z) :
  (forall p, p ∈ l -> P p) -> filter P l = l.
Proof.
  induction l as [|q l IH]; intros Hall; [reflexivity |].
  rewrite filter_cons_True by (apply Hall; now left).
  f_equal. apply IH. intros p Hp. apply Hall. now right.
Qed.

Lemma filter_none (P : Z -> Prop) `{!forall p, Decision (P p)} (l : list Z) :
  (forall p, p ∈ l -> ~ P p) -> filter P l = [].
Proof.
  induction l as [|q l IH]; intros Hall; [reflexivity |].
  rewrite filter_cons_False by (apply Hall; now left).
  apply IH. intros p Hp. apply Hall. now right.
Qed.

(** The insertion point cuts a sorted list into the positions up to [x]
    and the positions above it. *)
Lemma bisect_right_split a x :
  StronglySorted Z.le a ->
  take (bisect_right a x) a = filter (fun p => p <= x) a
  /\ drop (bisect_right a x) a = filter (fun p => x < p) a.
Proof.
  intros Ha. destruct (bisect_right_spec a x Ha) as (Hk & Hlow & Hup).
  set (k := bisect_right a x) in *.
  assert (Hl : forall p, p ∈ take k a -> p <= x).
  { intros p (i & Hi & Hik)%elem_of_take. eauto. }
  assert (Hu : forall p, p ∈ drop k a -> x < p).
  { intros p (i & Hi)%list_elem_of_lookup_1. rewrite lookup_drop in Hi.
    eapply Hup; [eassumption | lia]. }
  rewrite <- (take_drop k a) at 2 4. rewrite !filter_app. split.
  - rewrite filter_all by assumption.
    rewrite filter_none; [now rewrite app_nil_r |].
    intros p Hp%Hu. lia.
  - rewrite filter_none; [| intros p Hp%Hl; lia].
    now rewrite filter_all.
Qed.

End SortedFacts.

(** ** Lookups on the ring *)

Section RingLookup.
Import Py Hashing.
Implicit Types (r : ConsistentHashRing).

Lemma inv_increasing r : ring_inv r -> StronglySorted Z.le (sorted_keys r).
Proof. intros [-> _]. apply sorted_increasing. Qed.

Lemma elem_of_sorted_keys_inv r p :
  ring_inv r -> p ∈ sorted_keys r <-> is_Some (ring r !! p).
Proof. intros [-> _]. apply elem_of_sorted_keys. Qed.

(** Walking from the successor of [h] is reading the sorted positions
    from the insertion point of [h] and wrapping around. *)
Lemma successors_rotation r h :
  ring_inv r ->
  successors r h
  = drop (bisect_right (sorted_keys r) h) (sorted_keys r)
    ++ take (bisect_right (sorted_keys r) h) (sorted_keys r).
Proof.
  intros Hinv. unfold successors.
  destruct (bisect_right_split (sorted_keys r) h (inv_increasing r Hinv)) as [-> ->].
  reflexivity.
Qed.

Lemma elem_of_successors r h p :
  ring_inv r -> p ∈ successors r h <-> is_Some (ring r !! p).
Proof.
  intros Hinv. unfold successors.
  rewrite elem_of_app, !list_elem_of_filter, elem_of_sorted_keys_inv by assumption.
  split; [tauto |]. intros Hp. destruct (decide (h < p)); [left | right]; split; auto; lia.
Qed.

Lemma length_successors r h :
  ring_inv r -> length (successors r h) = length (sorted_keys r).
Proof.
  intros Hinv. rewrite successors_rotation by assumption.
  rewrite length_app, Nat.add_comm, <- length_app. now rewrite take_drop.
Qed.

(** The position both lookups start from is the first one of the walk. *)
Lemma start_index_lookup r key :
  ring_inv r ->
  sorted_keys r !! start_index r key = head (successors r (_hash key)).
Proof.
  intros Hinv. rewrite successors_rotation by assumption. unfold start_index.
  destruct (bisect_right_spec (sorted_keys r) (_hash key) (inv_increasing r Hinv))
    as (Hk & _ & _).
  set (k := bisect_right (sorted_keys r) (_hash key)) in *.
  destruct (decide (k = length (sorted_keys r))) as [-> | Hne].
  - rewrite drop_all, firstn_all. simpl. now rewrite head_lookup.
  - rewrite head_lookup, lookup_app_l by (rewrite length_drop; lia).
    rewrite lookup_drop. f_equal. lia.
Qed.

Lemma ring_empty_keys r : ring_inv r -> ring r = ∅ <-> sorted_keys r = [].
Proof.
  intros Hinv. split.
  - intros He. apply elem_of_nil_inv. intros p Hp.
    apply (elem_of_sorted_keys_inv r p Hinv) in Hp as [n Hn].
    rewrite He, lookup_empty in Hn. discriminate.
  - intros He. apply map_empty. intros p.
    destruct (ring r !! p) as [n|] eqn:Hn; [| reflexivity].
    assert (Hp : p ∈ sorted_keys r) by (apply elem_of_sorted_keys_inv; eauto).
    rewrite He in Hp. inversion Hp.
Qed.

(** [get_node] answers the owner of the first position of the walk. *)
Lemma get_node_spec r key :
  ring_inv r ->
  get_node r key
  = match head (successors r (_hash key)) with
    | Some p => dict_getitem (ring r) p
    | None => Raise empty_ring_error
    end.
Proof.
  intros Hinv. unfold get_node, list_getitem.
  rewrite start_index_lookup by assumption.
  destruct (decide (ring r = ∅)) as [He | Hne].
  - apply ring_empty_keys in He; [| assumption].
    assert (Hs : successors r (_hash key) = []).
    { apply nil_length_inv. rewrite length_successors, He by assumption. reflexivity. }
    now rewrite Hs.
  - destruct (head (successors r (_hash key))) as [p|] eqn:Hh; [reflexivity |].
    exfalso. apply Hne, ring_empty_keys; [assumption |].
    apply head_None in Hh. apply nil_length_inv.
    rewrite <- (length_successors r (_hash key)), Hh by assumption. reflexivity.
Qed.

Lemma filter_comm (P Q : Z -> Prop) `{!forall p, Decision (P p)}
    `{!forall p, Decision (Q p)} (l : list Z) :
  filter P (filter Q l) = filter Q (filter P l).
Proof.
  induction l as [|p l IH]; [reflexivity |].
  rewrite !(filter_cons _ p).
  destruct (decide (Q p)), (decide (P p));
    rewrite ?filter_cons_True, ?filter_cons_False by assumption; congruence.
Qed.

(** When [r'] holds the positions of [r] that satisfy [P], in the same
    order, its walk is the walk of [r] without the others. *)
Lemma successors_restrict (P : Z -> Prop) `{!forall p, Decision (P p)} r r' h :
  ring_inv r -> ring_inv r' ->
  (forall p, is_Some (ring r' !! p) <-> is_Some (ring r !! p) /\ P p) ->
  successors r' h = filter P (successors r h).
Proof.
  intros [Hs _] [Hs' _] Hsub. unfold successors.
  rewrite Hs', (sorted_keys_filter P (ring r) (ring r')), <- Hs by assumption.
  rewrite filter_app. f_equal; apply filter_comm.
Qed.

(** A key keeps its node when the position it resolved to stays on the
    ring with the same owner. *)
Lemma get_node_restrict (P : Z -> Prop) `{!forall p, Decision (P p)} r r' key n :
  ring_inv r -> ring_inv r' ->
  (forall p, is_Some (ring r' !! p) <-> is_Some (ring r !! p) /\ P p) ->
  (forall p, ring r !! p = Some n -> P p /\ ring r' !! p = Some n) ->
  get_node r key = Return n -> get_node r' key = Return n.
Proof.
  intros Hinv Hinv' Hsub Hkeep. rewrite !get_node_spec by assumption.
  rewrite (successors_restrict P r r') by assumption.
  destruct (successors r (_hash key)) as [|p l]; [discriminate |].
  simpl. unfold dict_getitem.
  destruct (ring r !! p) as [m|] eqn:Hp; [| discriminate].
  intros [= ->]. destruct (Hkeep p Hp) as [HP Hp'].
  rewrite filter_cons_True by assumption. simpl. now rewrite Hp'.
Qed.

Lemma minimal_disruption_remove r key x n :
  ring_inv r ->
  get_node r key = Return n -> n <> x -> get_node (remove_node r x) key = Return n.
Proof.
  intros Hinv Hget Hne. destruct (decide (x ∈ nodes r)) as [Hx | Hx].
  - apply (get_node_restrict (fun p => ring r !! p <> Some x) r); auto.
    + now apply ring_inv_remove_node.
    + intros p. rewrite ring_remove_node by assumption.
      destruct (decide (ring r !! p = Some x)) as [-> | Hp].
      * split; [intros [? [=]] | intros [_ []]; reflexivity].
      * tauto.
    + intros p Hp. rewrite ring_remove_node by assumption.
      destruct (decide (ring r !! p = Some x)); split; congruence.
  - now rewrite remove_node_absent.
Qed.

Lemma minimal_disruption_add r key x n :
  ring_inv r ->
  get_node (add_node r x) key = Return n -> n <> x -> get_node r key = Return n.
Proof.
  intros Hinv Hget Hne. destruct (decide (x ∈ nodes r)) as [Hx | Hx].
  - now rewrite add_node_member in Hget.
  - apply (get_node_restrict (fun p => is_Some (ring r !! p)) (add_node r x)); auto.
    + now apply ring_inv_add_node.
    + intros p. rewrite ring_add_node by assumption.
      destruct (decide (p ∈ virtual_hashes x)); [| tauto].
      split; [intros Hp; split; eauto | tauto].
    + intros p. rewrite ring_add_node by assumption.
      destruct (decide (p ∈ virtual_hashes x)); [congruence |].
      intros Hp. split; [eauto | assumption].
Qed.

(** C2. Minimal disruption, on every ring the calls can build: a key whose
    lookup resolved to a position of another node than the one removed
    keeps its node; and a key whose lookup, after a node is added, resolves
    to a position of another node had that node before. *)
Theorem minimal_disruption calls key x n :
  n <> x ->
  (get_node (run calls) key = Return n ->
   get_node (remove_node (run calls) x) key = Return n)
  /\ (get_node (add_node (run calls) x) key = Return n ->
      get_node (run calls) key = Return n).
Proof.
  intros Hne. pose proof (ring_inv_run calls) as Hinv. split; intros Hget.
  - now apply minimal_disruption_remove.
  - now apply (minimal_disruption_add _ _ x).
Qed.

End RingLookup.

(** ** Replica lists *)

Section RingReplicas.
Import Py Hashing.
Implicit Types (r : ConsistentHashRing).

Lemma elem_of_distinct seen l x : x ∈ distinct seen l <-> x ∈ l /\ x ∉ seen.
Proof.
  revert seen. induction l as [|y l IH]; intros seen; simpl.
  - rewrite elem_of_nil. tauto.
  - destruct (decide (y ∈ seen)) as [Hy | Hy].
    + rewrite IH, elem_of_cons. split; [tauto |].
      intros [[-> | Hx] Hn]; [contradiction | tauto].
    + rewrite !elem_of_cons, IH. split.
      * intros [-> | [Hx Hn]]; [tauto |]. split; [tauto |].
        intros Hs. apply Hn. apply elem_of_union. now right.
      * intros [[-> | Hx] Hn]; [tauto |].
        destruct (decide (x = y)) as [-> | Hne]; [tauto |]. right. split; [assumption |].
        intros [->%elem_of_singleton | Hs]%elem_of_union; contradiction.
Qed.

Lemma NoDup_distinct seen l : NoDup (distinct seen l).
Proof.
  revert seen. induction l as [|y l IH]; intros seen; simpl; [constructor |].
  destruct (decide (y ∈ seen)); [apply IH |].
  constructor; [| apply IH].
  intros [_ Hn]%elem_of_distinct. apply Hn, elem_of_union. left. now apply elem_of_singleton.
Qed.

(** The walk with its early exit is a prefix of the first occurrences. *)
Lemma collect_spec count owners acc seen :
  collect count owners acc seen
  = acc ++ (if decide (Z.of_nat (length acc) < count)
            then take (Z.to_nat count - length acc) (distinct seen owners)
            else distinct seen owners).
Proof.
  revert acc seen. induction owners as [|n owners IH]; intros acc seen; simpl.
  - destruct (decide (Z.of_nat (length acc) < count)); now rewrite ?take_nil, app_nil_r.
  - destruct (decide (n ∈ seen)); [apply IH |].
    destruct (decide (Z.of_nat (length (acc ++ [n])) = count)) as [Heq | Hne];
      rewrite length_app in *; simpl in *.
    + destruct (decide (Z.of_nat (length acc) < count)); [| lia].
      replace (Z.to_nat count - length acc)%nat with 1%nat by lia. reflexivity.
    + rewrite IH, length_app. simpl. rewrite <- app_assoc. simpl.
      destruct (decide (Z.of_nat (length acc) < count)) as [Hlt | Hge].
      * destruct (decide (Z.of_nat (length acc + 1) < count)); [| lia].
        replace (Z.to_nat count - length acc)%nat
          with (S (Z.to_nat count - (length acc + 1)))%nat by lia.
        reflexivity.
      * destruct (decide (Z.of_nat (length acc + 1) < count)); [lia | reflexivity].
Qed.

(** The index the loop reads at turn [i] is the [i]th position of the
    walk. *)
Lemma rotation_lookup (sk : list Z) k i :
  (k <= length sk)%nat -> (i < length sk)%nat ->
  (drop k sk ++ take k sk) !! i
  = sk !! (((if decide (k = length sk) then 0 else k) + i) mod length sk)%nat.
Proof.
  intros Hk Hi. destruct (decide (i < length sk - k)%nat) as [Hlt | Hge].
  - rewrite lookup_app_l by (rewrite length_drop; lia).
    rewrite lookup_drop. destruct (decide (k = length sk)); [lia |].
    now rewrite Nat.mod_small by lia.
  - rewrite lookup_app_r by (rewrite length_drop; lia).
    rewrite length_drop, lookup_take_lt by lia.
    destruct (decide (k = length sk)) as [-> | Hne].
    + rewrite Nat.mod_small by lia. f_equal. lia.
    + replace (k + i)%nat with (k + i - length sk + 1 * length sk)%nat at 1 by lia.
      rewrite Nat.Div0.mod_add, Nat.mod_small by lia. f_equal. lia.
Qed.

Lemma get_nodes_loop_spec r idx count range ps acc seen :
  Forall2 (fun i p => sorted_keys r !! ((idx + i) mod length (sorted_keys r))%nat = Some p
                      /\ is_Some (ring r !! p)) range ps ->
  get_nodes_loop r idx count range acc seen
  = Return (collect count (omap (fun p => ring r !! p) ps) acc seen).
Proof.
  intros Hall. revert acc seen.
  induction Hall as [|i p range ps [Hi [n Hn]] _ IH]; intros acc seen; [reflexivity |].
  cbn [get_nodes_loop]. unfold list_getitem, dict_getitem. rewrite Hi, Hn.
  cbn [omap list_omap]. rewrite Hn. cbn [collect].
  destruct (decide (n ∈ seen)); [apply IH |].
  destruct (decide (Z.of_nat (length (acc ++ [n])) = count)); [reflexivity | apply IH].
Qed.

(** [get_nodes] on a ring that is not empty: the first occurrences of the
    owners along the walk, cut at the clamped count when that is positive. *)
Lemma get_nodes_spec r key count :
  ring_inv r -> ring r <> ∅ ->
  get_nodes r key count
  = Return (let count :=
              if decide (Z.of_nat (size (nodes r)) < count)
              then Z.of_nat (size (nodes r)) else count in
            if decide (0 < count)
            then take (Z.to_nat count) (distinct ∅ (successor_owners r key))
            else distinct ∅ (successor_owners r key)).
Proof.
  intros Hinv Hne. unfold get_nodes.
  destruct (decide (ring r = ∅)); [contradiction |].
  rewrite (get_nodes_loop_spec r _ _ _ (successors r (_hash key))).
  - rewrite collect_spec. simpl. fold (successor_owners r key).
    now rewrite Nat.sub_0_r.
  - apply Forall2_same_length_lookup. split.
    + now rewrite length_seq, length_successors.
    + intros i j p Hj Hp. apply lookup_seq in Hj as [-> Hi]. simpl.
      split; [| apply (elem_of_successors r (_hash key)); eauto using list_elem_of_lookup_2].
      rewrite <- Hp, successors_rotation by assumption. unfold start_index.
      symmetry. apply rotation_lookup; [| assumption].
      apply (bisect_right_spec _ _ (inv_increasing r Hinv)).
Qed.

Lemma elem_of_successor_owners r key n :
  ring_inv r -> n ∈ successor_owners r key <-> exists p, ring r !! p = Some n.
Proof.
  intros Hinv. unfold successor_owners. rewrite list_elem_of_omap. split.
  - intros (p & _ & Hp). eauto.
  - intros (p & Hp). exists p. split; [| assumption].
    apply elem_of_successors; eauto.
Qed.

Lemma head_successor_owners r key :
  ring_inv r ->
  get_node r key
  = match head (successor_owners r key) with
    | Some n => Return n
    | None => Raise empty_ring_error
    end.
Proof.
  intros Hinv. rewrite get_node_spec by assumption. unfold successor_owners.
  pose proof (elem_of_successors r (_hash key)) as Hin.
  destruct (successors r (_hash key)) as [|p l]; [reflexivity |].
  destruct (proj1 (Hin p Hinv) ltac:(now left)) as [n Hn].
  cbn [head omap list_omap]. unfold dict_getitem. now rewrite Hn.
Qed.

Lemma virtual_hashes_length n : length (virtual_hashes n) = VIRTUAL_NODES.
Proof. unfold virtual_hashes. now rewrite length_fmap, length_seq. Qed.

(** On a ring where every member holds its positions, the owners met
    along the walk are the members. *)
Lemma owners_are_members r key n :
  ring_inv r -> ring_full r -> n ∈ successor_owners r key <-> n ∈ nodes r.
Proof.
  intros Hinv Hfull. rewrite elem_of_successor_owners by assumption. split.
  - intros (p & Hp). now apply (inv_owner r Hinv) in Hp.
  - intros Hn. exists (_hash (virtual_key n 0)). apply Hfull; [assumption |].
    unfold virtual_hashes. simpl. now left.
Qed.

Lemma distinct_owners_members r key :
  ring_inv r -> ring_full r ->
  distinct ∅ (successor_owners r key) ≡ₚ elements (nodes r).
Proof.
  intros Hinv Hfull. apply NoDup_Permutation.
  - apply NoDup_distinct.
  - apply NoDup_elements.
  - intros n. rewrite elem_of_distinct, elem_of_elements, owners_are_members by assumption.
    split; [tauto |]. intros Hn. split; [assumption | apply not_elem_of_empty].
Qed.

Lemma length_distinct_owners r key :
  ring_inv r -> ring_full r ->
  length (distinct ∅ (successor_owners r key)) = size (nodes r).
Proof. intros Hinv Hfull. now rewrite distinct_owners_members. Qed.

Lemma members_ring_nonempty r :
  ring_full r -> nodes r <> ∅ -> ring r <> ∅.
Proof.
  intros Hfull Hne He. apply Hne. apply leibniz_equiv, elem_of_equiv_empty. intros n Hn.
  assert (Hp : ring r !! _hash (virtual_key n 0) = Some n).
  { apply Hfull; [assumption |]. unfold virtual_hashes. simpl. now left. }
  rewrite He, lookup_empty in Hp. discriminate.
Qed.

End RingReplicas.

(** ** The properties of the ring *)

Section RingProperties.
Import Py Hashing.
Implicit Types (r : ConsistentHashRing).

Lemma size_members_pos r : nodes r <> ∅ -> (0 < size (nodes r))%nat.
Proof.
  intros Hne. assert (size (nodes r) <> 0%nat); [| lia].
  apply size_non_empty_iff. intros He. apply Hne. now apply leibniz_equiv.
Qed.

Lemma length_bind_virtual_hashes (l : list string) :
  length (l ≫= virtual_hashes) = (VIRTUAL_NODES * length l)%nat.
Proof.
  induction l as [|n l IH]; [reflexivity |].
  rewrite bind_cons, length_app, IH, virtual_hashes_length. simpl. lia.
Qed.

Lemma full_ring_size U r :
  distinct_positions U -> (forall n, n ∈ nodes r -> n ∈ U) ->
  ring_inv r -> ring_full r ->
  length (sorted_keys r) = (VIRTUAL_NODES * size (nodes r))%nat.
Proof.
  intros [Hnd Hinj] Hsub Hinv Hfull.
  rewrite (inv_sorted r Hinv), length_sorted_keys, <- size_dom.
  assert (Hdom : dom (ring r) = list_to_set (elements (nodes r) ≫= virtual_hashes)).
  { apply set_eq. intros p.
    rewrite elem_of_dom, elem_of_list_to_set, list_elem_of_bind. split.
    - intros [n Hn]. exists n. destruct (inv_owner r Hinv p n Hn) as [Hm Hp].
      split; [assumption | now apply elem_of_elements].
    - intros (n & Hp & Hn%elem_of_elements). exists n. now apply Hfull. }
  rewrite Hdom, size_list_to_set.
  - now rewrite length_bind_virtual_hashes.
  - apply NoDup_bind.
    + intros a b p Ha%elem_of_elements Hb%elem_of_elements. eauto.
    + intros a Ha%elem_of_elements. auto.
    + apply NoDup_elements.
Qed.

(** C4. The structural invariant, after any sequence of [add_node] and
    [remove_node] on a new ring: every position in the slots map belongs
    to a member; and, when the virtual positions of the nodes named do not
    collide, the ring has [V = 3] positions per member. *)
Theorem ring_structure_preserved calls :
  (forall p n, ring (run calls) !! p = Some n -> n ∈ nodes (run calls))
  /\ (collision_free calls ->
      length (sorted_keys (run calls)) = (3 * size (nodes (run calls)))%nat
      /\ size (ring (run calls)) = (3 * size (nodes (run calls)))%nat).
Proof.
  pose proof (ring_inv_run calls) as Hinv. split.
  - intros p n Hp. now apply (inv_owner _ Hinv) in Hp.
  - intros Hfree. destruct (ring_full_run calls Hfree) as [Hfull Hsub].
    assert (Hlen : length (sorted_keys (run calls)) = (3 * size (nodes (run calls)))%nat).
    { apply (full_ring_size (target <$> calls)); auto.
      now apply collision_free_distinct. }
    split; [assumption |].
    now rewrite <- Hlen, (inv_sorted _ Hinv), length_sorted_keys.
Qed.

(** On a ring without members both lookups raise the empty-ring error. *)
Lemma empty_ring_lookup r key count :
  ring_inv r -> nodes r = ∅ ->
  get_node r key = Raise empty_ring_error
  /\ get_nodes r key count = Raise empty_ring_error.
Proof.
  intros Hinv He.
  assert (Hr : ring r = ∅).
  { apply map_empty. intros p. destruct (ring r !! p) as [n|] eqn:Hp; [| reflexivity].
    apply (inv_owner r Hinv) in Hp as [Hn _]. rewrite He in Hn.
    now apply not_elem_of_empty in Hn. }
  unfold get_node, get_nodes. now destruct (decide (ring r = ∅)).
Qed.

(** C3, amended. On a ring with at least one member, none of whose
    virtual positions collide, [get_nodes key n] with [1 <= n] returns
    distinct members, the primary first and then in ring-successor order:
    [n] of them when [n <= |members|], all [|members|] of them otherwise. *)
Theorem get_nodes_distinct_members calls key (n : Z) :
  collision_free calls -> nodes (run calls) <> ∅ -> 1 <= n ->
  exists l primary,
    get_nodes (run calls) key n = Return l
    /\ NoDup l /\ (forall x, x ∈ l -> x ∈ nodes (run calls))
    /\ (n <= Z.of_nat (size (nodes (run calls))) -> Z.of_nat (length l) = n)
    /\ (Z.of_nat (size (nodes (run calls))) < n -> length l = size (nodes (run calls)))
    /\ l = take (length l) (distinct ∅ (successor_owners (run calls) key))
    /\ head l = Some primary /\ get_node (run calls) key = Return primary.
Proof.
  intros Hfree Hne Hn. pose proof (ring_inv_run calls) as Hinv.
  destruct (ring_full_run calls Hfree) as [Hfull _].
  set (r := run calls) in *.
  pose proof (size_members_pos r Hne) as Hpos.
  pose proof (length_distinct_owners r key Hinv Hfull) as Hlen.
  pose proof (head_successor_owners r key Hinv) as Hhead.
  rewrite (get_nodes_spec r key n Hinv (members_ring_nonempty r Hfull Hne)).
  set (D := distinct ∅ (successor_owners r key)) in *.
  set (c := if decide (Z.of_nat (size (nodes r)) < n)
            then Z.of_nat (size (nodes r)) else n).
  assert (Hc : 0 < c /\ (Z.to_nat c <= length D)%nat
               /\ (n <= Z.of_nat (size (nodes r)) -> c = n)
               /\ (Z.of_nat (size (nodes r)) < n -> c = Z.of_nat (size (nodes r)))).
  { unfold c. destruct (decide (Z.of_nat (size (nodes r)) < n)); repeat split; lia. }
  destruct Hc as (Hc0 & HcD & Hc1 & Hc2). cbv zeta.
  destruct (decide (0 < c)); [| lia].
  assert (HD : exists n0 D', D = n0 :: D' /\ head (successor_owners r key) = Some n0).
  { unfold D in *. destruct (successor_owners r key) as [|n0 o]; [simpl in Hlen; lia |].
    exists n0, (distinct ({[n0]} ∪ ∅) o). split; [| reflexivity].
    simpl. destruct (decide (n0 ∈ (∅ : gset string))) as [Hin | _]; [| reflexivity].
    now apply not_elem_of_empty in Hin. }
  destruct HD as (n0 & D' & HD & Hh).
  exists (take (Z.to_nat c) D), n0.
  rewrite length_take_le by assumption.
  split; [reflexivity |]. split; [| split; [| split; [| split; [| split; [| split]]]]].
  - eapply sublist_NoDup; [apply NoDup_distinct | apply sublist_take].
  - intros x Hx%subseteq_take. apply elem_of_distinct in Hx as [Hx _].
    now apply (owners_are_members r key).
  - intros Hle. rewrite Z2Nat.id by lia. auto.
  - intros Hgt. rewrite (Hc2 Hgt). lia.
  - reflexivity.
  - rewrite HD. destruct (Z.to_nat c) eqn:Hz; [lia | reflexivity].
  - now rewrite Hhead, Hh.
Qed.

(** C10. With [count <= 0] on a ring with at least one member, none of
    whose virtual positions collide, [get_nodes] returns every member once,
    in ring-successor order from the successor position of the key: the
    list is never empty. *)
Theorem get_nodes_nonpositive_count calls key (count : Z) :
  collision_free calls -> nodes (run calls) <> ∅ -> count <= 0 ->
  get_nodes (run calls) key count
  = Return (distinct ∅ (successor_owners (run calls) key))
  /\ distinct ∅ (successor_owners (run calls) key) <> []
  /\ NoDup (distinct ∅ (successor_owners (run calls) key))
  /\ (forall x, x ∈ distinct ∅ (successor_owners (run calls) key) <-> x ∈ nodes (run calls))
  /\ length (distinct ∅ (successor_owners (run calls) key)) = size (nodes (run calls)).
Proof.
  intros Hfree Hne Hn. pose proof (ring_inv_run calls) as Hinv.
  destruct (ring_full_run calls Hfree) as [Hfull _].
  set (r := run calls) in *.
  pose proof (size_members_pos r Hne) as Hpos.
  pose proof (length_distinct_owners r key Hinv Hfull) as Hlen.
  rewrite (get_nodes_spec r key count Hinv (members_ring_nonempty r Hfull Hne)).
  split; [| split; [| split; [| split]]].
  - cbv zeta. destruct (decide (Z.of_nat (size (nodes r)) < count)); [lia |].
    destruct (decide (0 < count)); [lia | reflexivity].
  - intros He. rewrite He in Hlen. simpl in Hlen. lia.
  - apply NoDup_distinct.
  - intros x. rewrite elem_of_distinct, owners_are_members by assumption.
    split; [tauto |]. intros Hx. split; [assumption | apply not_elem_of_empty].
  - assumption.
Qed.

End RingProperties.

(** ** The registry *)

Section CoordinatorFacts.
Import Py Coordinator.
Implicit Types (c : Coordinator).

Lemma unlock_lock c : lock c = false -> set_lock false (set_lock true c) = c.
Proof. destruct c as [rg ns lk]. simpl. now intros ->. Qed.

Lemma with_lock_held {A} (body : M A) c : lock c = true -> with_lock body c = Blocked c.
Proof. intros Hl. unfold with_lock. now rewrite Hl. Qed.

Lemma with_lock_free {A} (body : M A) c :
  lock c = false ->
  with_lock body c
  = match body (set_lock true c) with
    | Returned c' a => Returned (set_lock false c') a
    | Raised c' e => Raised (set_lock false c') e
    | Blocked c' => Blocked c'
    end.
Proof. intros Hl. unfold with_lock. now rewrite Hl. Qed.

Lemma dict_set_keys d k v :
  k ∉ d.*1 -> (dict_set d k v).*1 = d.*1 ++ [k].
Proof.
  induction d as [|[k' v'] d IH]; intros Hk; [reflexivity |].
  rewrite fmap_cons in Hk. apply not_elem_of_cons in Hk as [Hne Hk].
  cbn [dict_set]. destruct (decide (k' = k)); [simpl in Hne; congruence |].
  rewrite !fmap_cons, IH by assumption. reflexivity.
Qed.

Lemma dict_del_keys d k n : n ∈ (dict_del d k).*1 <-> n ∈ d.*1 /\ n <> k.
Proof.
  unfold dict_del. rewrite !list_elem_of_fmap. split.
  - intros ([k' v'] & -> & [Hne Hin]%list_elem_of_filter). split; [| assumption].
    exists (k', v'). now split.
  - intros [([k' v'] & -> & Hin) Hne]. exists (k', v'). split; [reflexivity |].
    now apply list_elem_of_filter.
Qed.

(** *** Re-registration *)

Lemma register_node_again c host port now :
  lock c = false -> host +:+ ":" +:+ port ∈ (nodes c).*1 ->
  _register_node host port now c
  = Returned c ("WARNING Node " +:+ (host +:+ ":" +:+ port) +:+ " already registered").
Proof.
  intros Hl Hin. unfold _register_node, bind. rewrite with_lock_free by assumption.
  cbn [nodes set_lock].
  destruct (decide (host +:+ ":" +:+ port ∈ (nodes c).*1)); [| contradiction].
  now rewrite unlock_lock.
Qed.

Lemma fields_register host port :
  token host -> token port ->
  split ("REGISTER_NODE " +:+ host +:+ " " +:+ port) = ["REGISTER_NODE"; host; port].
Proof.
  intros Hh Hp.
  change ("REGISTER_NODE " +:+ host +:+ " " +:+ port)
    with (join " " ["REGISTER_NODE"; host; port]).
  apply split_join.
  repeat (apply Forall_cons; split; [first [assumption | solve_token] |]).
  constructor.
Qed.

Lemma fields_get_nodes key :
  token key -> split ("GET_NODES_FOR_KEY " +:+ key) = ["GET_NODES_FOR_KEY"; key].
Proof.
  intros Hk.
  change ("GET_NODES_FOR_KEY " +:+ key) with (join " " ["GET_NODES_FOR_KEY"; key]).
  apply split_join.
  repeat (apply Forall_cons; split; [first [assumption | solve_token] |]).
  constructor.
Qed.

(** C6, amended. [REGISTER_NODE] for an id that is already registered
    answers a warning, not an error, and raises nothing; the registry is
    left exactly as it was: the entry, with the time of its first
    registration, and the ring. *)
Theorem register_again_warns c host port now :
  token host -> token port -> lock c = false ->
  host +:+ ":" +:+ port ∈ (nodes c).*1 ->
  _process_command ("REGISTER_NODE " +:+ host +:+ " " +:+ port) now c
  = Returned c ("WARNING Node " +:+ (host +:+ ":" +:+ port) +:+ " already registered").
Proof.
  intros Hh Hp Hl Hin. unfold _process_command.
  rewrite fields_register by assumption.
  destruct (decide ("REGISTER_NODE" = "REGISTER_NODE")); [| congruence].
  now apply register_node_again.
Qed.

(** *** The liveness sweep *)

Lemma elem_of_dead_nodes clock c node_id :
  node_id ∈ dead_nodes clock c
  <-> exists info, (node_id, info) ∈ nodes c /\ clock node_id - last_heartbeat info > 10.
Proof.
  unfold dead_nodes. rewrite list_elem_of_fmap. split.
  - intros ([k info] & -> & [Hold Hin]%list_elem_of_filter). now exists info.
  - intros (info & Hin & Hold). exists (node_id, info). split; [reflexivity |].
    now apply list_elem_of_filter.
Qed.

Lemma unregister_dead_held dead c :
  lock c = true ->
  (dead = [] /\ unregister_dead dead c = Returned c tt)
  \/ (exists e, unregister_dead dead c = Raised c e)
  \/ (dead <> [] /\ unregister_dead dead c = Blocked c).
Proof.
  intros Hl. destruct dead as [|node_id dead]; [left; now split | right].
  cbn [unregister_dead].
  destruct (unpack2 (split_on ":" node_id)) as [[h p] | e].
  - right. split; [discriminate |].
    unfold bind, _unregister_node, bind. now rewrite with_lock_held.
  - left. now exists e.
Qed.

(** The sweep as the code has it: it leaves the table and the ring as
    they were. It returns when it finds nobody dead; with somebody dead it
    either raises on an id that is not [host:port], or calls
    [_unregister_node] while holding the lock that call takes, and never
    returns. *)
Lemma heartbeat_loop_outcome clock c :
  lock c = false ->
  (dead_nodes clock c = [] /\ _heartbeat_loop clock c = Returned c tt)
  \/ (exists e, _heartbeat_loop clock c = Raised c e)
  \/ (dead_nodes clock c <> [] /\ _heartbeat_loop clock c = Blocked (set_lock true c)).
Proof.
  intros Hl. unfold _heartbeat_loop. rewrite with_lock_free by assumption.
  change (dead_nodes clock (set_lock true c)) with (dead_nodes clock c).
  destruct (unregister_dead_held (dead_nodes clock c) (set_lock true c) eq_refl)
    as [[Hd ->] | [[e ->] | [Hd ->]]]; rewrite ?unlock_lock by assumption; eauto.
Qed.

Lemma heartbeat_loop_state clock c :
  nodes (state_of (_heartbeat_loop clock c)) = nodes c
  /\ ring (state_of (_heartbeat_loop clock c)) = ring c.
Proof.
  destruct (lock c) eqn:Hl.
  - unfold _heartbeat_loop. now rewrite with_lock_held.
  - destruct (heartbeat_loop_outcome clock c Hl) as [[_ ->] | [[e ->] | [_ ->]]];
      now split.
Qed.

(** C5, amended. In a sweep the entries found dead are exactly those
    whose elapsed time is strictly above the threshold of 10 (an entry at
    exactly 10 is kept), and no entry at or under the threshold leaves the
    liveness table or the ring. *)
Theorem sweep_threshold clock c :
  (forall node_id,
     node_id ∈ dead_nodes clock c
     <-> exists info, (node_id, info) ∈ nodes c
                      /\ clock node_id - last_heartbeat info > 10)
  /\ (forall node_id info,
        (node_id, info) ∈ nodes c -> clock node_id - last_heartbeat info <= 10 ->
        (node_id, info) ∈ nodes (state_of (_heartbeat_loop clock c))
        /\ (node_id ∈ Hashing.nodes (ring c) ->
            node_id ∈ Hashing.nodes (ring (state_of (_heartbeat_loop clock c))))).
Proof.
  split; [apply elem_of_dead_nodes |].
  intros node_id info Hin _.
  destruct (heartbeat_loop_state clock c) as [-> ->]. now split.
Qed.

End CoordinatorFacts.

(** ** The states the registry goes through *)

Section CoordinatorStates.
Import Py Coordinator.
Implicit Types (c : Coordinator).

Lemma coordinator_inv_init : coordinator_inv __init__.
Proof.
  split; simpl.
  - apply ring_inv_init.
  - intros n. split; intros Hn; [now apply not_elem_of_empty in Hn | inversion Hn].
  - discriminate.
Qed.

Lemma coordinator_inv_lock c b :
  coordinator_inv c -> (b = true -> nodes c <> []) -> coordinator_inv (set_lock b c).
Proof. intros [Hr Hm Hl] Hb. split; simpl; auto. Qed.

Lemma inv_register_node host port now c :
  coordinator_inv c -> coordinator_inv (state_of (_register_node host port now c)).
Proof.
  intros Hinv. destruct (lock c) eqn:Hl.
  - unfold _register_node, bind. now rewrite with_lock_held.
  - unfold _register_node, bind. rewrite with_lock_free by assumption.
    cbn [nodes set_lock ring lock].
    destruct (decide (host +:+ ":" +:+ port ∈ (nodes c).*1)) as [Hin | Hin].
    + now rewrite unlock_lock.
    + destruct (int port) as [p|]; cbn [state_of ret set_lock ring nodes lock].
      * destruct Hinv as [Hr Hm _]. split; unfold set_lock; cbn [ring nodes lock].
        -- now apply ring_inv_add_node.
        -- intros n. rewrite nodes_add_node, dict_set_keys by assumption.
           rewrite elem_of_union, elem_of_singleton, elem_of_app, list_elem_of_singleton, Hm.
           tauto.
        -- discriminate.
      * now rewrite unlock_lock.
Qed.

Lemma inv_unregister_node host port c :
  coordinator_inv c -> coordinator_inv (state_of (_unregister_node host port c)).
Proof.
  intros Hinv. destruct (lock c) eqn:Hl.
  - unfold _unregister_node, bind. now rewrite with_lock_held.
  - unfold _unregister_node, bind. rewrite with_lock_free by assumption.
    cbn [nodes set_lock ring lock].
    destruct (decide (host +:+ ":" +:+ port ∉ (nodes c).*1)) as [Hin | Hin].
    + now rewrite unlock_lock.
    + cbn [state_of ret set_lock ring nodes lock].
      destruct Hinv as [Hr Hm _]. split; unfold set_lock; cbn [ring nodes lock].
      * now apply ring_inv_remove_node.
      * intros n. rewrite nodes_remove_node, dict_del_keys.
        rewrite elem_of_difference, elem_of_singleton, Hm. tauto.
      * discriminate.
Qed.

Lemma inv_get_nodes_for_key key c :
  coordinator_inv c -> state_of (_get_nodes_for_key key c) = c.
Proof.
  intros Hinv. unfold _get_nodes_for_key, try_except, bind. destruct (lock c) eqn:Hl.
  - now rewrite with_lock_held.
  - rewrite with_lock_free by assumption. cbn [ring set_lock].
    destruct (Hashing.get_nodes (ring c) key 3) as [[|primary replicas] | e];
      cbn [state_of ret]; now apply unlock_lock.
Qed.

Lemma inv_list_nodes c : state_of (_list_nodes c) = c.
Proof.
  unfold _list_nodes. destruct (lock c) eqn:Hl.
  - now rewrite with_lock_held.
  - rewrite with_lock_free by assumption. cbn [nodes set_lock].
    destruct (nodes c); cbn [state_of]; now apply unlock_lock.
Qed.

Lemma inv_process_command command now c :
  coordinator_inv c -> coordinator_inv (state_of (_process_command command now c)).
Proof.
  intros Hinv. unfold _process_command.
  destruct (split command) as [|cmd args]; [assumption |].
  repeat case_decide.
  - destruct args as [|h [|p args]]; try assumption. now apply inv_register_node.
  - destruct args as [|h [|p args]]; try assumption. now apply inv_unregister_node.
  - destruct args as [|k args]; [assumption |]. now rewrite inv_get_nodes_for_key.
  - now rewrite inv_list_nodes.
  - assumption.
Qed.

Lemma state_of_handle_client received now c :
  state_of (_handle_client received now c) = c
  \/ state_of (_handle_client received now c)
     = state_of (_process_command (strip received) now c).
Proof.
  unfold _handle_client. case_decide; [now left | right].
  unfold try_except, bind.
  now destruct (_process_command (strip received) now c).
Qed.

Lemma inv_heartbeat_loop clock c :
  coordinator_inv c -> coordinator_inv (state_of (_heartbeat_loop clock c)).
Proof.
  intros Hinv. destruct (lock c) eqn:Hl.
  - unfold _heartbeat_loop. now rewrite with_lock_held.
  - destruct (heartbeat_loop_outcome clock c Hl) as [[_ ->] | [[e ->] | [Hd ->]]];
      try assumption.
    apply coordinator_inv_lock; [assumption |]. intros _ He. apply Hd.
    unfold dead_nodes. now rewrite He.
Qed.

Lemma coordinator_inv_run evs : coordinator_inv (run evs).
Proof.
  unfold run. induction evs as [|ev evs IH] using rev_ind.
  - apply coordinator_inv_init.
  - rewrite foldl_snoc. destruct ev as [received now | clock]; cbn [step].
    + destruct (state_of_handle_client received now (foldl step __init__ evs)) as [-> | ->];
        [assumption | now apply inv_process_command].
    + now apply inv_heartbeat_loop.
Qed.

Lemma get_nodes_for_key_empty key c :
  coordinator_inv c -> nodes c = [] ->
  _get_nodes_for_key key c = Returned c "ERROR Ring is empty, no nodes available".
Proof.
  intros Hinv He.
  assert (Hl : lock c = false).
  { destruct (lock c) eqn:Hl; [| reflexivity]. now destruct (inv_lock c Hinv Hl). }
  assert (Hn : Hashing.nodes (ring c) = ∅).
  { apply leibniz_equiv, elem_of_equiv_empty. intros n Hn%(inv_members c Hinv).
    rewrite He in Hn. inversion Hn. }
  unfold _get_nodes_for_key, try_except, bind. rewrite with_lock_free by assumption.
  cbn [ring set_lock].
  destruct (empty_ring_lookup (ring c) key 3 (inv_ring c Hinv) Hn) as [_ ->].
  cbn [ret str_exception Hashing.empty_ring_error]. now rewrite unlock_lock.
Qed.

(** C8. Empty ring: on every ring the calls can build that has no member,
    [get_node] and [get_nodes], for any key and count, raise the
    empty-ring error (a [ValueError] in the source); and in every state of
    the registry with nobody registered, [GET_NODES_FOR_KEY] is answered
    with an error response. *)
Theorem empty_ring_failure :
  (forall calls key count,
     Hashing.nodes (Hashing.run calls) = ∅ ->
     Hashing.get_node (Hashing.run calls) key = Raise Hashing.empty_ring_error
     /\ Hashing.get_nodes (Hashing.run calls) key count = Raise Hashing.empty_ring_error)
  /\ (forall evs key now,
        token key -> nodes (run evs) = [] ->
        _process_command ("GET_NODES_FOR_KEY " +:+ key) now (run evs)
        = Returned (run evs) "ERROR Ring is empty, no nodes available"
        /\ _handle_client ("GET_NODES_FOR_KEY " +:+ key) now (run evs)
           = Returned (run evs) (Some "ERROR Ring is empty, no nodes available")).
Proof.
  split.
  - intros calls key count He. apply empty_ring_lookup; [apply ring_inv_run | assumption].
  - intros evs key now Hk He.
    assert (Hp : _process_command ("GET_NODES_FOR_KEY " +:+ key) now (run evs)
                 = Returned (run evs) "ERROR Ring is empty, no nodes available").
    { unfold _process_command. rewrite fields_get_nodes by assumption.
      repeat case_decide; try congruence.
      apply get_nodes_for_key_empty; [apply coordinator_inv_run | assumption]. }
    split; [assumption |].
    unfold _handle_client.
    rewrite strip_command by (assumption || (eexists _, _; now split)).
    case_decide as Hnil; [discriminate Hnil |].
    unfold try_except, bind. now rewrite Hp.
Qed.

End CoordinatorStates.

(** ** The properties on concrete rings and registries *)

Section Instances.
Import Py.

Lemma three_nodes_collision_free : Hashing.collision_free three_nodes.
Proof. unfold Hashing.collision_free. compute_done. Defined.

Lemma three_nodes_members : Hashing.nodes (Hashing.run three_nodes) <> ∅.
Proof. compute_done. Defined.

End Instances.

Lemma minimal_disruption_witness :
  "node3:5003" <> "node2:5002"
  /\ Hashing.get_node (Hashing.run three_nodes) "user:42" = Py.Return "node3:5003"
  /\ Hashing.get_node (Hashing.remove_node (Hashing.run three_nodes) "node2:5002") "user:42"
     = Py.Return "node3:5003"
  /\ Hashing.get_node (Hashing.add_node (Hashing.run two_nodes) "node2:5002") "user:42"
     = Py.Return "node3:5003"
  /\ Hashing.get_node (Hashing.run two_nodes) "user:42" = Py.Return "node3:5003".
Proof.
  assert (Hne : "node3:5003" <> "node2:5002") by discriminate.
  assert (Hget : Hashing.get_node (Hashing.run three_nodes) "user:42" = Py.Return "node3:5003")
    by (vm_compute; reflexivity).
  assert (Hadd : Hashing.get_node (Hashing.add_node (Hashing.run two_nodes) "node2:5002")
                   "user:42" = Py.Return "node3:5003")
    by (vm_compute; reflexivity).
  split; [exact Hne | split; [exact Hget | split; [| split; [exact Hadd |]]]].
  - exact (proj1 (minimal_disruption three_nodes "user:42" "node2:5002" "node3:5003" Hne) Hget).
  - exact (proj2 (minimal_disruption two_nodes "user:42" "node2:5002" "node3:5003" Hne) Hadd).
Defined.

Lemma ring_structure_preserved_witness :
  Hashing.collision_free three_nodes
  /\ length (Hashing.sorted_keys (Hashing.run three_nodes))
     = (3 * size (Hashing.nodes (Hashing.run three_nodes)))%nat
  /\ size (Hashing.ring (Hashing.run three_nodes))
     = (3 * size (Hashing.nodes (Hashing.run three_nodes)))%nat.
Proof.
  split; [exact three_nodes_collision_free |].
  exact (proj2 (ring_structure_preserved three_nodes) three_nodes_collision_free).
Defined.

Lemma get_nodes_distinct_members_witness :
  Hashing.collision_free three_nodes
  /\ Hashing.nodes (Hashing.run three_nodes) <> ∅
  /\ 1 <= 2
  /\ exists l primary,
      Hashing.get_nodes (Hashing.run three_nodes) "user:42" 2 = Py.Return l
      /\ NoDup l /\ (forall x, x ∈ l -> x ∈ Hashing.nodes (Hashing.run three_nodes))
      /\ (2 <= Z.of_nat (size (Hashing.nodes (Hashing.run three_nodes)))
          -> Z.of_nat (length l) = 2)
      /\ (Z.of_nat (size (Hashing.nodes (Hashing.run three_nodes))) < 2
          -> length l = size (Hashing.nodes (Hashing.run three_nodes)))
      /\ l = take (length l)
               (Hashing.distinct ∅ (Hashing.successor_owners (Hashing.run three_nodes) "user:42"))
      /\ head l = Some primary
      /\ Hashing.get_node (Hashing.run three_nodes) "user:42" = Py.Return primary.
Proof.
  assert (H12 : 1 <= 2) by lia.
  split; [exact three_nodes_collision_free |].
  split; [exact three_nodes_members |].
  split; [exact H12 |].
  exact (get_nodes_distinct_members three_nodes "user:42" 2
           three_nodes_collision_free three_nodes_members H12).
Defined.

Example get_nodes_two_and_five :
  Hashing.get_nodes (Hashing.run three_nodes) "user:42" 2
  = Py.Return ["node3:5003"; "node2:5002"]
  /\ Hashing.get_nodes (Hashing.run three_nodes) "user:42" 5
     = Py.Return ["node3:5003"; "node2:5002"; "node1:5001"].
Proof. split; vm_compute; reflexivity. Qed.

(** C3 as stated fails at [n = 0]: on a ring with one member, whose
    positions do not collide, [get_nodes key 0] returns that member, not
    zero nodes. *)
Lemma get_nodes_zero_count :
  let calls := [Hashing.Add "node1:5001"] in
  Hashing.collision_free calls
  /\ 0 <= Z.of_nat (size (Hashing.nodes (Hashing.run calls)))
  /\ Hashing.get_nodes (Hashing.run calls) "user:42" 0 = Py.Return ["node1:5001"]
  /\ ~ (exists l, Hashing.get_nodes (Hashing.run calls) "user:42" 0 = Py.Return l
                  /\ Z.of_nat (length l) = 0).
Proof.
  intros calls.
  assert (Hget : Hashing.get_nodes (Hashing.run calls) "user:42" 0 = Py.Return ["node1:5001"])
    by (vm_compute; reflexivity).
  split; [unfold Hashing.collision_free; compute_done |].
  split; [lia |]. split; [exact Hget |].
  intros (l & Hl & Hlen). rewrite Hget in Hl. injection Hl as <-. discriminate Hlen.
Qed.

Lemma get_nodes_nonpositive_count_witness :
  Hashing.collision_free three_nodes
  /\ Hashing.nodes (Hashing.run three_nodes) <> ∅
  /\ -2 <= 0
  /\ Hashing.get_nodes (Hashing.run three_nodes) "user:42" (-2)
     = Py.Return (Hashing.distinct ∅ (Hashing.successor_owners (Hashing.run three_nodes) "user:42"))
  /\ Hashing.get_nodes (Hashing.run three_nodes) "user:42" (-2)
     = Py.Return ["node3:5003"; "node2:5002"; "node1:5001"].
Proof.
  assert (Hle : -2 <= 0) by lia.
  split; [exact three_nodes_collision_free |].
  split; [exact three_nodes_members |].
  split; [exact Hle |].
  split.
  - exact (proj1 (get_nodes_nonpositive_count three_nodes "user:42" (-2)
                    three_nodes_collision_free three_nodes_members Hle)).
  - vm_compute. reflexivity.
Defined.

Section RegistryInstances.
Import Coordinator.

Lemma one_registered_entry : ("127.0.0.1:5001", first_entry) ∈ nodes one_registered.
Proof. compute_done. Defined.

Lemma one_registered_unlocked : lock one_registered = false.
Proof. vm_compute. reflexivity. Defined.

End RegistryInstances.

Lemma register_again_warns_witness :
  Py.token "127.0.0.1" /\ Py.token "5001"
  /\ Coordinator.lock one_registered = false
  /\ "127.0.0.1" +:+ ":" +:+ "5001" ∈ (Coordinator.nodes one_registered).*1
  /\ Coordinator._process_command ("REGISTER_NODE " +:+ "127.0.0.1" +:+ " " +:+ "5001") 5
       one_registered
     = Coordinator.Returned one_registered
         ("WARNING Node " +:+ ("127.0.0.1" +:+ ":" +:+ "5001") +:+ " already registered").
Proof.
  assert (Hh : Py.token "127.0.0.1") by solve_token.
  assert (Hp : Py.token "5001") by solve_token.
  assert (Hin : "127.0.0.1" +:+ ":" +:+ "5001" ∈ (Coordinator.nodes one_registered).*1)
    by compute_done.
  split; [exact Hh | split; [exact Hp | split; [exact one_registered_unlocked |]]].
  split; [exact Hin |].
  exact (register_again_warns one_registered "127.0.0.1" "5001" 5 Hh Hp
           one_registered_unlocked Hin).
Defined.

(** C6 as stated fails: registering [127.0.0.1:5001] again at time 5 answers
    the warning and leaves the entry with the time 0 of its first
    registration; no response to that command carries a refreshed entry. *)
Lemma register_again_keeps_timestamp :
  Coordinator._process_command "REGISTER_NODE 127.0.0.1 5001" 5 one_registered
  = Coordinator.Returned one_registered "WARNING Node 127.0.0.1:5001 already registered"
  /\ Coordinator.last_heartbeat
       <$> Coordinator.dict_get (Coordinator.nodes one_registered) "127.0.0.1:5001"
     = Some 0
  /\ ~ (exists c' response info,
          Coordinator._process_command "REGISTER_NODE 127.0.0.1 5001" 5 one_registered
          = Coordinator.Returned c' response
          /\ Coordinator.dict_get (Coordinator.nodes c') "127.0.0.1:5001" = Some info
          /\ Coordinator.last_heartbeat info = 5).
Proof.
  assert (Hrun : Coordinator._process_command "REGISTER_NODE 127.0.0.1 5001" 5 one_registered
                 = Coordinator.Returned one_registered
                     "WARNING Node 127.0.0.1:5001 already registered")
    by (vm_compute; reflexivity).
  assert (Hget : Coordinator.dict_get (Coordinator.nodes one_registered) "127.0.0.1:5001"
                 = Some first_entry) by (vm_compute; reflexivity).
  split; [exact Hrun |]. split; [now rewrite Hget |].
  intros (c' & response & info & Hc & Hinfo & Hfresh).
  rewrite Hrun in Hc. injection Hc as <- _. rewrite Hget in Hinfo.
  injection Hinfo as <-. discriminate Hfresh.
Qed.

Lemma sweep_threshold_witness :
  ("127.0.0.1:5001", first_entry) ∈ Coordinator.nodes one_registered
  /\ 7 - Coordinator.last_heartbeat first_entry <= 10
  /\ ("127.0.0.1:5001", first_entry)
     ∈ Coordinator.nodes
         (Coordinator.state_of (Coordinator._heartbeat_loop (fun _ => 7) one_registered))
  /\ "127.0.0.1:5001" ∈ Coordinator.dead_nodes (fun _ => 11) one_registered.
Proof.
  assert (Hle : 7 - Coordinator.last_heartbeat first_entry <= 10) by discriminate.
  split; [exact one_registered_entry | split; [exact Hle | split]].
  - exact (proj1 (proj2 (sweep_threshold (fun _ => 7) one_registered)
                    "127.0.0.1:5001" first_entry one_registered_entry Hle)).
  - apply (proj2 (proj1 (sweep_threshold (fun _ => 11) one_registered) "127.0.0.1:5001")).
    exists first_entry. split; [exact one_registered_entry | reflexivity].
Defined.

(** C5 as stated fails: an entry whose elapsed time is exactly the
    threshold (registered at 0, swept at 10) is found alive; the sweep
    returns with the entry still in the liveness table and on the ring. *)
Lemma sweep_keeps_entry_at_threshold :
  let clock : string -> Z := fun _ => 10 in
  Coordinator.dict_get (Coordinator.nodes one_registered) "127.0.0.1:5001" = Some first_entry
  /\ clock "127.0.0.1:5001" - Coordinator.last_heartbeat first_entry >= 10
  /\ Coordinator._heartbeat_loop clock one_registered = Coordinator.Returned one_registered tt
  /\ "127.0.0.1:5001"
     ∈ (Coordinator.nodes
          (Coordinator.state_of (Coordinator._heartbeat_loop clock one_registered))).*1
  /\ "127.0.0.1:5001"
     ∈ Hashing.nodes
         (Coordinator.ring
            (Coordinator.state_of (Coordinator._heartbeat_loop clock one_registered))).
Proof.
  intros clock. split; [vm_compute; reflexivity |].
  split; [discriminate |]. split; [vm_compute; reflexivity |].
  split; compute_done.
Qed.

(** What the sweep does once somebody is over the threshold (registered at
    0, swept at 11): it calls [_unregister_node] with the lock held and
    stays blocked on it, the entry still registered. *)
Example sweep_blocks_on_dead_node :
  Coordinator._heartbeat_loop (fun _ => 11) one_registered
  = Coordinator.Blocked (Coordinator.set_lock true one_registered).
Proof. vm_compute. reflexivity. Qed.

Lemma empty_ring_failure_witness :
  let calls := [Hashing.Add "node1:5001"; Hashing.Remove "node1:5001"] in
  let evs := [Coordinator.Connection "REGISTER_NODE 127.0.0.1 5001" 0;
              Coordinator.Connection "UNREGISTER_NODE 127.0.0.1 5001" 1] in
  Hashing.nodes (Hashing.run calls) = ∅
  /\ Py.token "anything"
  /\ Coordinator.nodes (Coordinator.run evs) = []
  /\ Hashing.get_node (Hashing.run calls) "user:42" = Py.Raise Hashing.empty_ring_error
  /\ Hashing.get_nodes (Hashing.run calls) "user:42" 3 = Py.Raise Hashing.empty_ring_error
  /\ Coordinator._handle_client ("GET_NODES_FOR_KEY " +:+ "anything") 2 (Coordinator.run evs)
     = Coordinator.Returned (Coordinator.run evs)
         (Some "ERROR Ring is empty, no nodes available").
Proof.
  intros calls evs.
  assert (He : Hashing.nodes (Hashing.run calls) = ∅) by (vm_compute; reflexivity).
  assert (Ht : Py.token "anything") by solve_token.
  assert (Hn : Coordinator.nodes (Coordinator.run evs) = []) by (vm_compute; reflexivity).
  split; [exact He | split; [exact Ht | split; [exact Hn |]]].
  split; [exact (proj1 (proj1 empty_ring_failure calls "user:42" 3 He)) |].
  split; [exact (proj2 (proj1 empty_ring_failure calls "user:42" 3 He)) |].
  exact (proj2 (proj2 empty_ring_failure evs "anything" 2 Ht Hn)).
Defined.

(** * Further properties of the code *)

(** A literal is a token: its characters are checked one by one. *)
Ltac literal_token :=
  let d := fresh "d" in
  let Hd := fresh "Hd" in
  split; [discriminate | intros d Hd; simpl in Hd; intuition (subst; reflexivity)].

(** ** More on the hash ring *)

Section RingMore.
Import Py Hashing.
Implicit Types (r : ConsistentHashRing).

Lemma ring_ext r1 r2 :
  ring r1 = ring r2 -> sorted_keys r1 = sorted_keys r2 -> nodes r1 = nodes r2 -> r1 = r2.
Proof. destruct r1, r2. simpl. now intros -> -> ->. Qed.

Lemma first_virtual_hash n : _hash (virtual_key n 0) ∈ virtual_hashes n.
Proof. unfold virtual_hashes. simpl. now left. Qed.

Lemma sorted_head_least p l q :
  StronglySorted Z.le (p :: l) -> q ∈ p :: l -> p <= q.
Proof.
  intros Hs Hq. apply StronglySorted_inv in Hs as [_ Hall].
  apply elem_of_cons in Hq as [-> | Hq]; [lia |].
  rewrite Forall_forall in Hall. auto.
Qed.

(** On a well-formed ring both lookups only ever name members. *)
Lemma get_node_member r key n : ring_inv r -> get_node r key = Return n -> n ∈ nodes r.
Proof.
  intros Hinv. rewrite head_successor_owners by assumption.
  destruct (successor_owners r key) as [|m l] eqn:Ho; [discriminate |].
  intros [= <-].
  assert (Hm : m ∈ successor_owners r key) by (rewrite Ho; now left).
  apply elem_of_successor_owners in Hm as [p Hp]; [| assumption].
  now apply (inv_owner r Hinv) in Hp.
Qed.

Lemma distinct_owner_member r key n :
  ring_inv r -> n ∈ distinct ∅ (successor_owners r key) -> n ∈ nodes r.
Proof.
  intros Hinv [Hn _]%elem_of_distinct.
  apply elem_of_successor_owners in Hn as [p Hp]; [| assumption].
  now apply (inv_owner r Hinv) in Hp.
Qed.

Lemma get_nodes_members r key count l :
  ring_inv r -> get_nodes r key count = Return l -> forall n, n ∈ l -> n ∈ nodes r.
Proof.
  intros Hinv Hget n Hn. destruct (decide (ring r = ∅)) as [He | Hne].
  - unfold get_nodes in Hget. now destruct (decide (ring r = ∅)).
  - rewrite get_nodes_spec in Hget by assumption. injection Hget as <-.
    cbv zeta in Hn.
    destruct (decide (0 < _)); [apply subseteq_take in Hn |];
      now apply (distinct_owner_member r key).
Qed.

(** X1. The node [get_node] answers owns the first ring position strictly
    above the key's hash or, when no position is above it, the lowest
    position of the ring: a key that hashes exactly onto a position goes to
    the next one. *)
Theorem get_node_successor calls key n :
  get_node (run calls) key = Return n ->
  exists p,
    ring (run calls) !! p = Some n
    /\ ((_hash key < p
         /\ forall q, is_Some (ring (run calls) !! q) -> _hash key < q -> p <= q)
        \/ ((forall q, is_Some (ring (run calls) !! q) -> q <= _hash key)
            /\ forall q, is_Some (ring (run calls) !! q) -> p <= q)).
Proof.
  pose proof (ring_inv_run calls) as Hinv. set (r := run calls) in *.
  rewrite get_node_spec by assumption. unfold successors.
  pose proof (inv_increasing r Hinv) as Hs.
  pose proof (StronglySorted_filter (fun p => _hash key < p) _ Hs) as Hup.
  pose proof (StronglySorted_filter (fun p => p <= _hash key) _ Hs) as Hlow.
  destruct (filter (fun p => _hash key < p) (sorted_keys r)) as [|p up] eqn:Hf.
  - rewrite app_nil_l.
    destruct (filter (fun p => p <= _hash key) (sorted_keys r)) as [|p low] eqn:Hg;
      [discriminate |].
    simpl. unfold dict_getitem. destruct (ring r !! p) as [m|] eqn:Hp; [| discriminate].
    intros [= ->]. exists p. split; [assumption | right].
    assert (Hall : forall q, is_Some (ring r !! q) -> q <= _hash key).
    { intros q Hq%(elem_of_sorted_keys_inv r q Hinv).
      destruct (decide (_hash key < q)) as [Hlt | Hge]; [| lia].
      assert (Hin : q ∈ filter (fun p => _hash key < p) (sorted_keys r))
        by now apply list_elem_of_filter.
      rewrite Hf in Hin. inversion Hin. }
    split; [assumption |]. intros q Hq. apply (sorted_head_least p low); [assumption |].
    rewrite <- Hg. apply list_elem_of_filter. split; [auto |].
    now apply elem_of_sorted_keys_inv.
  - simpl. unfold dict_getitem. destruct (ring r !! p) as [m|] eqn:Hp; [| discriminate].
    intros [= ->]. exists p. split; [assumption | left].
    assert (Hin : p ∈ filter (fun p => _hash key < p) (sorted_keys r))
      by (rewrite Hf; now left).
    apply list_elem_of_filter in Hin as [Hlt _]. split; [assumption |].
    intros q Hq Hltq. apply (sorted_head_least p up); [assumption |].
    rewrite <- Hf. apply list_elem_of_filter. split; [assumption |].
    now apply elem_of_sorted_keys_inv.
Qed.

(** On a well-formed ring that is not empty both lookups answer, and
    agree. *)
Lemma lookups_found r key (count : Z) :
  ring_inv r -> ring r <> ∅ ->
  exists n rest,
    get_node r key = Return n
    /\ get_nodes r key count = Return (n :: rest)
    /\ NoDup (n :: rest)
    /\ (forall x, x ∈ n :: rest -> x ∈ nodes r)
    /\ (1 <= count -> Z.of_nat (length (n :: rest)) <= count).
Proof.
  intros Hinv Hne.
  pose proof (head_successor_owners r key Hinv) as Hhead.
  pose proof (get_nodes_spec r key count Hinv Hne) as Hget.
  destruct (successor_owners r key) as [|n o] eqn:Ho.
  { exfalso. apply Hne, map_empty. intros p.
    destruct (ring r !! p) as [m|] eqn:Hp; [| reflexivity].
    assert (Hm : m ∈ successor_owners r key)
      by (apply elem_of_successor_owners; eauto).
    rewrite Ho in Hm. inversion Hm. }
  assert (HD : distinct ∅ (n :: o) = n :: distinct ({[n]} ∪ ∅) o).
  { simpl. destruct (decide (n ∈ (∅ : gset string))) as [Hin | _]; [| reflexivity].
    now apply not_elem_of_empty in Hin. }
  assert (Hn : n ∈ nodes r) by (apply (get_node_member r key); assumption).
  assert (Hsize : (1 <= size (nodes r))%nat).
  { apply size_members_pos. intros He. rewrite He in Hn.
    now apply not_elem_of_empty in Hn. }
  cbv zeta in Hget.
  set (c := if decide (Z.of_nat (size (nodes r)) < count)
            then Z.of_nat (size (nodes r)) else count) in *.
  assert (Hc : (1 <= count -> 1 <= c <= count)).
  { unfold c. destruct (decide (Z.of_nat (size (nodes r)) < count)); lia. }
  assert (Hres : exists rest,
             get_nodes r key count = Return (n :: rest)
             /\ (n :: rest) `sublist_of` (distinct ∅ (n :: o))
             /\ (1 <= count -> Z.of_nat (length (n :: rest)) <= count)).
  { rewrite Hget. destruct (decide (0 < c)) as [Hpos | Hnpos].
    - destruct (Z.to_nat c) as [|k] eqn:Hk; [lia |].
      exists (take k (distinct ({[n]} ∪ ∅) o)). rewrite HD. cbn [take].
      split; [reflexivity |]. split.
      + apply sublist_skip, sublist_take.
      + intros H1. specialize (Hc H1). cbn [length]. rewrite length_take. lia.
    - exists (distinct ({[n]} ∪ ∅) o). rewrite HD.
      split; [reflexivity |]. split; [reflexivity |]. intros H1. specialize (Hc H1). lia. }
  destruct Hres as (rest & Hgn & Hsub & Hlen).
  exists n, rest. split; [exact Hhead |]. split; [exact Hgn |].
  split; [| split; [| exact Hlen]].
  - eapply sublist_NoDup; [apply NoDup_distinct | exact Hsub].
  - intros x Hx. apply (get_nodes_members r key count (n :: rest)); assumption.
Qed.

(** X2. On every ring the calls can build, whatever the collisions, the
    two lookups agree and raise nothing but the empty-ring error: either the
    ring has no position and both raise it, or [get_node] answers a member
    and [get_nodes] a list of distinct members that starts with it and, for
    a count of at least one, is no longer than the count. *)
Theorem lookups_agree calls key (count : Z) :
  (ring (run calls) = ∅
   /\ get_node (run calls) key = Raise empty_ring_error
   /\ get_nodes (run calls) key count = Raise empty_ring_error)
  \/ (exists n rest,
        get_node (run calls) key = Return n
        /\ get_nodes (run calls) key count = Return (n :: rest)
        /\ NoDup (n :: rest)
        /\ (forall x, x ∈ n :: rest -> x ∈ nodes (run calls))
        /\ (1 <= count -> Z.of_nat (length (n :: rest)) <= count)).
Proof.
  pose proof (ring_inv_run calls) as Hinv.
  destruct (decide (ring (run calls) = ∅)) as [He | Hne].
  - left. unfold get_node, get_nodes. now destruct (decide (ring (run calls) = ∅)).
  - right. now apply lookups_found.
Qed.

Lemma remove_add_node r x :
  ring_inv r -> x ∉ nodes r ->
  (forall p, p ∈ virtual_hashes x -> ring r !! p = None) ->
  remove_node (add_node r x) x = r.
Proof.
  intros Hinv Hx Hfree.
  assert (Hin : x ∈ nodes (add_node r x)).
  { rewrite nodes_add_node. apply elem_of_union. left. now apply elem_of_singleton. }
  assert (Hring : ring (remove_node (add_node r x) x) = ring r).
  { apply map_eq. intros p. rewrite ring_remove_node, ring_add_node by assumption.
    destruct (decide (p ∈ virtual_hashes x)) as [Hp | Hp].
    - rewrite (Hfree p Hp). now destruct (decide (Some x = Some x)).
    - destruct (decide (ring r !! p = Some x)) as [Hown | _]; [| reflexivity].
      apply (inv_owner r Hinv) in Hown as [Hmem _]. contradiction. }
  apply ring_ext.
  - exact Hring.
  - rewrite sorted_keys_remove_node, Hring by assumption. symmetry. apply (inv_sorted r Hinv).
  - rewrite nodes_remove_node, nodes_add_node. apply set_eq. intros y.
    rewrite elem_of_difference, elem_of_union, elem_of_singleton.
    split; [tauto |]. intros Hy. split; [now right | intros ->; contradiction].
Qed.

(** X3. Adding a node that is not a member, none of whose virtual
    positions is taken on the ring, and removing it again gives back the
    ring as it was: slots, ordered positions and members. *)
Theorem add_remove_round_trip calls x :
  x ∉ nodes (run calls) ->
  (forall p, p ∈ virtual_hashes x -> ring (run calls) !! p = None) ->
  remove_node (add_node (run calls) x) x = run calls.
Proof. intros Hx Hfree. apply remove_add_node; [apply ring_inv_run | assumption..]. Qed.

(** X4. The order in which two nodes are added does not matter when their
    virtual positions are disjoint: the ring is the same state either way. *)
Theorem add_node_commutes r a b :
  (forall p, p ∈ virtual_hashes a -> p ∉ virtual_hashes b) ->
  add_node (add_node r a) b = add_node (add_node r b) a.
Proof.
  intros Hdisj.
  assert (Hab : a <> b).
  { intros ->. apply (Hdisj _ (first_virtual_hash b)), first_virtual_hash. }
  destruct (decide (a ∈ nodes r)) as [Ha | Ha], (decide (b ∈ nodes r)) as [Hb | Hb].
  - now rewrite (add_node_member r a), (add_node_member r b), (add_node_member r a).
  - rewrite (add_node_member r a) by assumption. symmetry. apply add_node_member.
    rewrite nodes_add_node. apply elem_of_union. now right.
  - rewrite (add_node_member r b) by assumption. apply add_node_member.
    rewrite nodes_add_node. apply elem_of_union. now right.
  - assert (Hb' : b ∉ nodes (add_node r a)).
    { rewrite nodes_add_node. intros [Hba%elem_of_singleton | Hbn]%elem_of_union;
        [congruence | contradiction]. }
    assert (Ha' : a ∉ nodes (add_node r b)).
    { rewrite nodes_add_node. intros [Hba%elem_of_singleton | Hbn]%elem_of_union;
        [congruence | contradiction]. }
    assert (Hring : ring (add_node (add_node r a) b) = ring (add_node (add_node r b) a)).
    { apply map_eq. intros p. rewrite !ring_add_node by assumption.
      destruct (decide (p ∈ virtual_hashes a)) as [Hpa | Hpa],
               (decide (p ∈ virtual_hashes b)) as [Hpb | Hpb]; try reflexivity.
      exfalso. exact (Hdisj p Hpa Hpb). }
    apply ring_ext.
    + exact Hring.
    + rewrite !sorted_keys_add_node by assumption. now rewrite Hring.
    + rewrite !nodes_add_node. apply set_eq. intros y. rewrite !elem_of_union. tauto.
Qed.

(** X5. [get_all_nodes] lists the members, each once, in ascending order. *)
Theorem get_all_nodes_sorted r :
  StronglySorted String.le (get_all_nodes r)
  /\ NoDup (get_all_nodes r)
  /\ forall n, n ∈ get_all_nodes r <-> n ∈ nodes r.
Proof.
  unfold get_all_nodes. split; [| split].
  - apply StronglySorted_merge_sort; apply _.
  - rewrite merge_sort_Permutation. apply NoDup_elements.
  - intros n. rewrite merge_sort_Permutation. apply elem_of_elements.
Qed.

(** X6. A node that was removed is never answered by a lookup, for any
    key and count, until it is added again. *)
Theorem removed_node_gets_no_key calls x key (count : Z) :
  get_node (remove_node (run calls) x) key <> Return x
  /\ forall l, get_nodes (remove_node (run calls) x) key count = Return l -> x ∉ l.
Proof.
  pose proof (ring_inv_remove_node (run calls) x (ring_inv_run calls)) as Hinv.
  assert (Hx : x ∉ nodes (remove_node (run calls) x)).
  { rewrite nodes_remove_node. intros [_ Hne]%elem_of_difference.
    apply Hne. now apply elem_of_singleton. }
  split.
  - intros Hget. apply Hx. now apply (get_node_member _ key).
  - intros l Hget Hin. apply Hx. now apply (get_nodes_members _ key count l).
Qed.

(** X7. The members of a ring are the ids whose last call was [add_node]. *)
Theorem members_by_last_call calls n :
  n ∈ nodes (run calls)
  <-> last (filter (fun c => target c = n) calls) = Some (Add n).
Proof.
  unfold run. induction calls as [|c calls IH] using rev_ind.
  - simpl. split; [intros Hn; now apply not_elem_of_empty in Hn | discriminate].
  - rewrite foldl_snoc, filter_app.
    destruct (decide (target c = n)) as [Hc | Hc].
    + rewrite (filter_cons_True _ c []) by assumption. rewrite filter_nil, last_snoc.
      destruct c as [m | m]; simpl in Hc; subst m; cbn [apply_call].
      * rewrite nodes_add_node. split; [reflexivity |]. intros _.
        apply elem_of_union. left. now apply elem_of_singleton.
      * rewrite nodes_remove_node. split; [| discriminate].
        intros [_ Hne]%elem_of_difference. exfalso. apply Hne. now apply elem_of_singleton.
    + rewrite (filter_cons_False _ c []) by assumption. rewrite filter_nil, app_nil_r, <- IH.
      destruct c as [m | m]; simpl in Hc; cbn [apply_call].
      * rewrite nodes_add_node, elem_of_union, elem_of_singleton. split; [| tauto].
        intros [-> | Hn]; [contradiction | assumption].
      * rewrite nodes_remove_node, elem_of_difference, elem_of_singleton.
        split; [tauto |]. intros Hn. split; [assumption | congruence].
Qed.

End RingMore.

(** ** More on the storage node *)

Section NodeMore.
Import Py Node.
Variable net : network.

Lemma process_replicate n key value :
  token key -> payload value ->
  _process_command net n ("REPLICATE " +:+ key +:+ " " +:+ value)
  = (_put n key value, "OK", []).
Proof.
  intros Hk Hv. unfold _process_command.
  change ("REPLICATE " +:+ key +:+ " " +:+ value)
    with ("REPLICATE" +:+ String " " (key +:+ String " " value)).
  rewrite split_max_token by (literal_token || reflexivity).
  rewrite split_max_token by (assumption || reflexivity).
  rewrite split_max_rest by assumption. reflexivity.
Qed.

Lemma process_info n :
  _process_command net n "INFO"
  = (n, "OK Node " +:+ node_id n +:+ " keys=" +:+ str_int (Z.of_nat (size (data n))), []).
Proof. reflexivity. Qed.

Lemma get_put_other n key key' value : key <> key' -> _get (_put n key value) key' = _get n key'.
Proof. intros Hne. unfold _get, _put. simpl. now apply lookup_insert_ne. Qed.

Lemma get_delete_other n key key' : key <> key' -> _get (_delete n key) key' = _get n key'.
Proof.
  intros Hne. unfold _get, _delete.
  destruct (decide (key ∈ dom (data n))); [| reflexivity]. simpl. now apply lookup_delete_ne.
Qed.

(** X8. Writing or deleting one key changes the answer to [GET] for no
    other key. *)
Theorem other_keys_untouched n key key' value :
  token key -> token key' -> payload value -> key <> key' ->
  (_process_command net
     (_process_command net n ("PUT " +:+ key +:+ " " +:+ value)).1.1 ("GET " +:+ key')).1.2
  = (_process_command net n ("GET " +:+ key')).1.2
  /\ (_process_command net
        (_process_command net n ("DELETE " +:+ key)).1.1 ("GET " +:+ key')).1.2
     = (_process_command net n ("GET " +:+ key')).1.2.
Proof.
  intros Hk Hk' Hv Hne.
  rewrite process_put, process_delete, !process_get by assumption. cbn [fst snd].
  now rewrite get_put_other, get_delete_other.
Qed.

(** X9. The last write wins, whether it arrives as [PUT] or as
    [REPLICATE]: the two commands store alike, and after two writes to a
    key [GET] answers the second value. *)
Theorem last_write_wins n key v1 v2 :
  token key -> payload v1 -> payload v2 ->
  _process_command net n ("REPLICATE " +:+ key +:+ " " +:+ v1)
  = _process_command net n ("PUT " +:+ key +:+ " " +:+ v1)
  /\ (_process_command net
        (_process_command net
           (_process_command net n ("PUT " +:+ key +:+ " " +:+ v1)).1.1
           ("REPLICATE " +:+ key +:+ " " +:+ v2)).1.1
        ("GET " +:+ key)).1.2
     = "VALUE " +:+ v2
  /\ (_process_command net
        (_process_command net
           (_process_command net n ("REPLICATE " +:+ key +:+ " " +:+ v1)).1.1
           ("PUT " +:+ key +:+ " " +:+ v2)).1.1
        ("GET " +:+ key)).1.2
     = "VALUE " +:+ v2.
Proof.
  intros Hk H1 H2.
  rewrite !process_put, !process_replicate, !process_get by assumption. cbn [fst snd].
  now rewrite !get_after_put.
Qed.

Lemma size_after_put n key value :
  Z.of_nat (size (data (_put n key value)))
  = Z.of_nat (size (data n)) + (if decide (key ∈ dom (data n)) then 0 else 1).
Proof.
  unfold _put. cbn [data with_data].
  destruct (decide (key ∈ dom (data n))) as [Hin | Hin].
  - apply elem_of_dom in Hin. rewrite map_size_insert_Some by assumption. lia.
  - apply not_elem_of_dom in Hin. rewrite map_size_insert_None by assumption. lia.
Qed.

Lemma size_after_delete n key :
  Z.of_nat (size (data (_delete n key)))
  = Z.of_nat (size (data n)) - (if decide (key ∈ dom (data n)) then 1 else 0).
Proof.
  unfold _delete. destruct (decide (key ∈ dom (data n))) as [Hin | Hin]; [| lia].
  cbn [data with_data]. apply elem_of_dom in Hin.
  rewrite map_size_delete_Some by assumption.
  assert (size (data n) <> 0%nat); [| lia].
  intros He%map_size_empty_iff. rewrite He in Hin. destruct Hin as [v Hv'].
  rewrite lookup_empty in Hv'. discriminate.
Qed.

(** X10. [INFO] counts the keys stored: a [PUT] raises the count by one
    when the key is new and leaves it when the key is overwritten; a
    [DELETE] lowers it by one when the key is there and leaves it when it
    is not. *)
Theorem info_counts_keys n key value :
  token key -> payload value ->
  (_process_command net
     (_process_command net n ("PUT " +:+ key +:+ " " +:+ value)).1.1 "INFO").1.2
  = "OK Node " +:+ node_id n +:+ " keys="
    +:+ str_int (Z.of_nat (size (data n)) + (if decide (key ∈ dom (data n)) then 0 else 1))
  /\ (_process_command net
        (_process_command net n ("DELETE " +:+ key)).1.1 "INFO").1.2
     = "OK Node " +:+ node_id n +:+ " keys="
       +:+ str_int (Z.of_nat (size (data n)) - (if decide (key ∈ dom (data n)) then 1 else 0)).
Proof.
  intros Hk Hv. rewrite process_put, process_delete, !process_info by assumption.
  cbn [fst snd]. rewrite size_after_put, size_after_delete. split.
  - reflexivity.
  - unfold _delete. now destruct (decide (key ∈ dom (data n))).
Qed.

(** X11. Only a write answered [OK] changes the store: when a command
    leaves the node in another state, its verb is [PUT], [DELETE] or
    [REPLICATE] and the response is [OK]; reads, [INFO], unknown verbs and
    every command answered with an error leave the state as it was. *)
Theorem only_writes_modify n command :
  (_process_command net n command).1.1 <> n ->
  (exists verb fields,
      split_max 2 command = verb :: fields
      /\ (verb = "PUT" \/ verb = "DELETE" \/ verb = "REPLICATE"))
  /\ (_process_command net n command).1.2 = "OK".
Proof.
  unfold _process_command.
  destruct (split_max 2 command) as [|verb fields] eqn:Hs; [intros []; reflexivity |].
  destruct (decide (verb = "PUT")) as [-> | Hput].
  { destruct (decide (length (_ :: fields) < 3)%nat); [intros []; reflexivity |].
    intros _. split; [eauto 6 |]. now destruct (decide (3 < length (_ :: fields))%nat). }
  destruct (decide (verb = "GET")) as [-> | Hget].
  { destruct (decide (length (_ :: fields) < 2)%nat); [intros []; reflexivity |].
    destruct (_get n _); intros []; reflexivity. }
  destruct (decide (verb = "DELETE")) as [-> | Hdel].
  { destruct (decide (length (_ :: fields) < 2)%nat); [intros []; reflexivity |].
    intros _. split; [eauto 6 | reflexivity]. }
  destruct (decide (verb = "REPLICATE")) as [-> | Hrep].
  { destruct (decide (length (_ :: fields) < 3)%nat); [intros []; reflexivity |].
    intros _. split; [eauto 6 | reflexivity]. }
  destruct (decide (verb = "INFO")); intros []; reflexivity.
Qed.

End NodeMore.

(** ** Fields are tokens *)

Section TokenFacts.
Import Py.

Lemma chars_append a b :
  list_ascii_of_string (a +:+ b) = (list_ascii_of_string a ++ list_ascii_of_string b)%list.
Proof. induction a as [|c a IH]; [reflexivity |]. rewrite append_cons. simpl. now rewrite IH. Qed.

Lemma token_app a b : token a -> token b -> token (a +:+ b).
Proof.
  intros [Ha Hca] [Hb Hcb]. split.
  - destruct a; [contradiction | discriminate].
  - intros c. rewrite chars_append, in_app_iff. intros [Hc | Hc]; auto.
Qed.

Lemma token_chars c s :
  isspace c = false ->
  (forall d, In d (list_ascii_of_string s) -> isspace d = false) ->
  token (String c s).
Proof. intros Hc Hs. split; [discriminate |]. intros d [<- | Hd]; auto. Qed.

Lemma take_word_chars t d :
  In d (list_ascii_of_string (take_word t).1) -> isspace d = false.
Proof.
  induction t as [|c t IH]; cbn [take_word]; [intros [] |].
  destruct (isspace c) eqn:Hc; [intros [] |].
  destruct (take_word t) as [w r]. simpl in *. intros [<- | Hd]; auto.
Qed.

Lemma lstrip_head c t s : lstrip s = String c t -> isspace c = false.
Proof.
  unfold lstrip. induction s as [|d s IH]; cbn [lstrip_by]; [discriminate |].
  destruct (isspace d) eqn:Hd; [assumption |]. now intros [= <- _].
Qed.

(** Every field [split] yields is a token. *)
Lemma split_max_tokens n s :
  (String.length s <= n)%nat -> Forall token (split_max n s).
Proof.
  revert s. induction n as [|n IH]; intros s Hn.
  - destruct s; [| simpl in Hn; lia]. rewrite split_max_empty. constructor.
  - pose proof (lstrip_length s) as Hl. cbn [split_max].
    destruct (lstrip s) as [|c t] eqn:Hs; [constructor |].
    pose proof (lstrip_head c t s Hs) as Hc.
    pose proof (take_word_length t) as Ht. pose proof (take_word_chars t) as Hw.
    cbn [take_word]. rewrite Hc. destruct (take_word t) as [w r].
    simpl in *. constructor.
    + now apply token_chars.
    + apply IH. lia.
Qed.

Lemma split_tokens s : Forall token (split s).
Proof. unfold split. now apply split_max_tokens. Qed.

Lemma token_node_id host port : token host -> token port -> token (host +:+ ":" +:+ port).
Proof. intros Hh Hp. apply token_app; [assumption |]. apply (token_app ":"); [literal_token | assumption]. Qed.

Lemma append_assoc a b c : (a +:+ b) +:+ c = a +:+ b +:+ c.
Proof. induction a as [|d a IH]; [reflexivity |]. rewrite !append_cons. now rewrite IH. Qed.

Lemma append_empty_inv a b : a +:+ b = EmptyString -> b = EmptyString.
Proof. destruct a; [now rewrite append_nil | discriminate]. Qed.

(** Trailing white space is looked for in the last part only, as long as
    something of that part is left. *)
Lemma rstrip_append a b :
  rstrip_by isspace b <> EmptyString ->
  rstrip_by isspace (a +:+ b) = a +:+ rstrip_by isspace b.
Proof.
  intros Hb. induction a as [|c a IH]; [reflexivity |].
  rewrite !append_cons. cbn [rstrip_by]. rewrite IH.
  destruct (a +:+ rstrip_by isspace b) eqn:Heq; [| reflexivity].
  now apply append_empty_inv in Heq.
Qed.

Lemma rstrip_cons c s :
  rstrip_by isspace s <> EmptyString ->
  rstrip_by isspace (String c s) = String c (rstrip_by isspace s).
Proof. intros Hs. cbn [rstrip_by]. now destruct (rstrip_by isspace s). Qed.


(** Parts without trailing white space, joined by one character, make a
    text without trailing white space. *)
Lemma rstrip_join_by sep ws :
  Forall (fun w => rstrip_by isspace w = w /\ w <> EmptyString) ws -> ws <> [] ->
  rstrip_by isspace (join (String sep EmptyString) ws) = join (String sep EmptyString) ws
  /\ join (String sep EmptyString) ws <> EmptyString.
Proof.
  induction ws as [|w ws IH]; intros Hall Hne; [contradiction |].
  apply Forall_cons in Hall as [[Hw Hwn] Hall].
  destruct ws as [|w' ws'].
  - cbn [join]. now split.
  - destruct (IH Hall ltac:(discriminate)) as [Hr Hn].
    change (join (String sep EmptyString) (w :: w' :: ws'))
      with (w +:+ String sep (join (String sep EmptyString) (w' :: ws'))).
    assert (Hc : rstrip_by isspace (String sep (join (String sep EmptyString) (w' :: ws')))
                 = String sep (join (String sep EmptyString) (w' :: ws'))).
    { rewrite rstrip_cons by (rewrite Hr; exact Hn). now rewrite Hr. }
    split.
    + rewrite rstrip_append by (rewrite Hc; discriminate). now rewrite Hc.
    + intros Heq%append_empty_inv. discriminate.
Qed.



End TokenFacts.

(** ** More on the registry *)

Section CoordinatorMore.
Import Py Coordinator.
Implicit Types (c : Coordinator).

Lemma dict_set_fresh d k v : k ∉ d.*1 -> dict_set d k v = d ++ [(k, v)].
Proof.
  induction d as [|[k' v'] d IH]; intros Hk; [reflexivity |].
  rewrite fmap_cons in Hk. apply not_elem_of_cons in Hk as [Hne Hk].
  cbn [dict_set]. destruct (decide (k' = k)); [simpl in Hne; congruence |].
  now rewrite IH.
Qed.



Lemma dict_get_None d k : dict_get d k = None <-> k ∉ d.*1.
Proof.
  induction d as [|[k' v'] d IH]; cbn [dict_get].
  - split; [intros _ Hin; inversion Hin | reflexivity].
  - rewrite fmap_cons, not_elem_of_cons. cbn [fst].
    destruct (decide (k' = k)) as [-> | Hne]; [split; [discriminate | tauto] |].
    rewrite IH. split; [intros ?; split; congruence | tauto].
Qed.

Lemma dict_get_snoc d k v id :
  k ∉ d.*1 -> dict_get (d ++ [(k, v)]) id
              = if decide (id = k) then Some v else dict_get d id.
Proof.
  induction d as [|[k' v'] d IH]; intros Hk; cbn [dict_get app].
  - destruct (decide (k = id)), (decide (id = k)); congruence.
  - rewrite fmap_cons in Hk. apply not_elem_of_cons in Hk as [Hne Hk]. cbn [fst] in Hne.
    destruct (decide (k' = id)) as [-> | Hne'].
    + destruct (decide (id = k)); congruence.
    + now apply IH.
Qed.

Lemma dict_get_del d k id :
  dict_get (dict_del d k) id = if decide (id = k) then None else dict_get d id.
Proof.
  unfold dict_del. induction d as [|[k' v'] d IH]; cbn [dict_get].
  - now destruct (decide (id = k)).
  - rewrite filter_cons. cbn [fst]. destruct (decide (k' <> k)) as [Hne | Heq].
    + cbn [dict_get]. destruct (decide (k' = id)) as [-> | Hne'].
      * destruct (decide (id = k)); congruence.
      * apply IH.
    + assert (k' = k) by (destruct (decide (k' = k)); tauto). subst k'.
      rewrite IH. destruct (decide (k = id)), (decide (id = k)); congruence.
Qed.

Lemma fields_unregister host port :
  token host -> token port ->
  split ("UNREGISTER_NODE " +:+ host +:+ " " +:+ port) = ["UNREGISTER_NODE"; host; port].
Proof.
  intros Hh Hp.
  change ("UNREGISTER_NODE " +:+ host +:+ " " +:+ port)
    with (join " " ["UNREGISTER_NODE"; host; port]).
  apply split_join.
  repeat (apply Forall_cons; split; [first [assumption | literal_token] |]).
  constructor.
Qed.

Lemma register_node_fresh c host port now p :
  lock c = false -> host +:+ ":" +:+ port ∉ (nodes c).*1 -> int port = Some p ->
  _register_node host port now c
  = Returned {| ring := Hashing.add_node (ring c) (host +:+ ":" +:+ port);
                nodes := nodes c ++ [(host +:+ ":" +:+ port,
                                      {| host := host; port := p; last_heartbeat := now |})];
                lock := false |}
             ("OK Node " +:+ (host +:+ ":" +:+ port) +:+ " registered").
Proof.
  intros Hl Hin Hp. unfold _register_node, bind. rewrite with_lock_free by assumption.
  cbn [nodes set_lock ring lock].
  destruct (decide (host +:+ ":" +:+ port ∈ (nodes c).*1)); [contradiction |].
  rewrite Hp. unfold set_lock, ret. cbn [ring nodes lock].
  now rewrite dict_set_fresh.
Qed.

Lemma unregister_node_known c host port :
  lock c = false -> host +:+ ":" +:+ port ∈ (nodes c).*1 ->
  _unregister_node host port c
  = Returned {| ring := Hashing.remove_node (ring c) (host +:+ ":" +:+ port);
                nodes := dict_del (nodes c) (host +:+ ":" +:+ port);
                lock := false |}
             ("OK Node " +:+ (host +:+ ":" +:+ port) +:+ " unregistered").
Proof.
  intros Hl Hin. unfold _unregister_node, bind. rewrite with_lock_free by assumption.
  cbn [nodes set_lock ring lock].
  destruct (decide (host +:+ ":" +:+ port ∉ (nodes c).*1)); [contradiction |].
  reflexivity.
Qed.

(** X12. [UNREGISTER_NODE] for an id that is not registered answers
    [ERROR Node <id> not found] and changes nothing. *)
Theorem unregister_unknown c host port now :
  token host -> token port -> lock c = false ->
  host +:+ ":" +:+ port ∉ (nodes c).*1 ->
  _process_command ("UNREGISTER_NODE " +:+ host +:+ " " +:+ port) now c
  = Returned c ("ERROR Node " +:+ (host +:+ ":" +:+ port) +:+ " not found").
Proof.
  intros Hh Hp Hl Hin. unfold _process_command.
  rewrite fields_unregister by assumption.
  destruct (decide ("UNREGISTER_NODE" = "REGISTER_NODE")); [discriminate |].
  destruct (decide ("UNREGISTER_NODE" = "UNREGISTER_NODE")); [| congruence].
  unfold _unregister_node, bind. rewrite with_lock_free by assumption.
  cbn [nodes set_lock].
  destruct (decide (host +:+ ":" +:+ port ∉ (nodes c).*1)); [| contradiction].
  now rewrite unlock_lock.
Qed.




End CoordinatorMore.

(** ** What happens to the liveness table *)

Section RegistryTable.
Import Py Coordinator.
Implicit Types (c : Coordinator).

Lemma get_nodes_for_key_state key c : state_of (_get_nodes_for_key key c) = c.
Proof.
  unfold _get_nodes_for_key, try_except, bind. destruct (lock c) eqn:Hl.
  - now rewrite with_lock_held.
  - rewrite with_lock_free by assumption. cbn [ring set_lock].
    destruct (Hashing.get_nodes (ring c) key 3) as [[|primary others] | e];
      cbn [state_of ret]; now apply unlock_lock.
Qed.

(** A request or a sweep leaves the table as it was, or adds one new entry
    at its end, or deletes one id. *)
Lemma table_after_register host port now c :
  token host -> token port ->
  nodes (state_of (_register_node host port now c)) = nodes c
  \/ exists p,
       (host +:+ ":" +:+ port ∉ (nodes c).*1) /\ int port = Some p
       /\ nodes (state_of (_register_node host port now c))
          = nodes c ++ [(host +:+ ":" +:+ port,
                         {| host := host; port := p; last_heartbeat := now |})].
Proof.
  intros Hh Hp. destruct (lock c) eqn:Hl.
  - left. unfold _register_node, bind. now rewrite with_lock_held.
  - destruct (decide (host +:+ ":" +:+ port ∈ (nodes c).*1)) as [Hin | Hin].
    + left. now rewrite register_node_again.
    + destruct (int port) as [p|] eqn:Hint.
      * right. exists p. rewrite (register_node_fresh c host port now p) by assumption.
        now split.
      * left. unfold _register_node, bind. rewrite with_lock_free by assumption.
        cbn [nodes set_lock].
        destruct (decide (host +:+ ":" +:+ port ∈ (nodes c).*1)); [contradiction |].
        rewrite Hint. cbn [state_of]. now rewrite unlock_lock.
Qed.

Lemma table_after_unregister host port c :
  nodes (state_of (_unregister_node host port c)) = nodes c
  \/ nodes (state_of (_unregister_node host port c))
     = dict_del (nodes c) (host +:+ ":" +:+ port).
Proof.
  destruct (lock c) eqn:Hl.
  - left. unfold _unregister_node, bind. now rewrite with_lock_held.
  - destruct (decide (host +:+ ":" +:+ port ∈ (nodes c).*1)) as [Hin | Hin].
    + right. now rewrite unregister_node_known.
    + left. unfold _unregister_node, bind. rewrite with_lock_free by assumption.
      cbn [nodes set_lock].
      destruct (decide (host +:+ ":" +:+ port ∉ (nodes c).*1)); [| contradiction].
      cbn [state_of ret]. now rewrite unlock_lock.
Qed.

Lemma table_after_step c ev :
  nodes (step c ev) = nodes c
  \/ (exists host port_text p now,
        token host /\ token port_text /\ int port_text = Some p
        /\ (host +:+ ":" +:+ port_text ∉ (nodes c).*1)
        /\ nodes (step c ev)
           = nodes c ++ [(host +:+ ":" +:+ port_text,
                          {| host := host; port := p; last_heartbeat := now |})])
  \/ (exists node_id, nodes (step c ev) = dict_del (nodes c) node_id).
Proof.
  destruct ev as [received now | clock]; cbn [step].
  - destruct (state_of_handle_client received now c) as [-> | ->]; [now left |].
    unfold _process_command. pose proof (split_tokens (strip received)) as Htok.
    destruct (split (strip received)) as [|cmd args]; [now left |].
    apply Forall_cons in Htok as [_ Htok].
    destruct (decide (cmd = "REGISTER_NODE")).
    { destruct args as [|h [|p args]]; try (now left).
      apply Forall_cons in Htok as [Hh Htok]. apply Forall_cons in Htok as [Hp _].
      destruct (table_after_register h p now c Hh Hp) as [-> | (q & Hin & Hint & ->)];
        [now left |].
      right. left. exists h, p, q, now. auto. }
    destruct (decide (cmd = "UNREGISTER_NODE")).
    { destruct args as [|h [|p args]]; try (now left).
      destruct (table_after_unregister h p c) as [-> | ->]; [now left |].
      right. right. eauto. }
    destruct (decide (cmd = "GET_NODES_FOR_KEY")).
    { destruct args as [|k args]; [now left |]. left. now rewrite get_nodes_for_key_state. }
    destruct (decide (cmd = "LIST_NODES")); [left; now rewrite inv_list_nodes | now left].
  - left. apply heartbeat_loop_state.
Qed.

(** X15. An entry of the liveness table never changes while it is there:
    after any request or sweep, a registered id has the entry it had, with
    the time of its registration, or is no longer registered. *)
Theorem entry_never_changes c ev node_id info :
  dict_get (nodes c) node_id = Some info ->
  dict_get (nodes (step c ev)) node_id = Some info
  \/ dict_get (nodes (step c ev)) node_id = None.
Proof.
  intros Hget.
  destruct (table_after_step c ev)
    as [-> | [(h & pt & p & now & _ & _ & _ & Hin & ->) | (k & ->)]].
  - now left.
  - left. rewrite dict_get_snoc by assumption.
    destruct (decide (node_id = h +:+ ":" +:+ pt)) as [-> | _]; [| assumption].
    apply dict_get_None in Hin. congruence.
  - rewrite dict_get_del. destruct (decide (node_id = k)); [now right | now left].
Qed.

Lemma NoDup_dict_del d k : NoDup d.*1 -> NoDup (dict_del d k).*1.
Proof.
  unfold dict_del. induction d as [|[k' v'] d IH]; [constructor |].
  rewrite fmap_cons, NoDup_cons. intros [Hk Hd]. rewrite filter_cons.
  destruct (decide ((k', v').1 <> k)); [| now apply IH].
  rewrite fmap_cons. apply NoDup_cons. split; [| now apply IH].
  intros Hin. apply Hk. fold (dict_del d k) in Hin. now apply dict_del_keys in Hin.
Qed.

Lemma registry_keys_nodup evs : NoDup (nodes (run evs)).*1.
Proof.
  unfold run. induction evs as [|ev evs IH] using rev_ind; [constructor |].
  rewrite foldl_snoc.
  destruct (table_after_step (foldl step __init__ evs) ev)
    as [-> | [(h & pt & p & now & _ & _ & _ & Hin & ->) | (k & ->)]].
  - assumption.
  - rewrite fmap_app. apply NoDup_app. split; [assumption |]. split.
    + intros x Hx Hx'. apply list_elem_of_singleton in Hx' as ->. contradiction.
    + apply NoDup_singleton.
  - now apply NoDup_dict_del.
Qed.

Lemma registry_entries evs node_id info :
  (node_id, info) ∈ nodes (run evs) ->
  exists port_text,
    node_id = host info +:+ ":" +:+ port_text
    /\ int port_text = Some (port info)
    /\ token (host info) /\ token port_text.
Proof.
  revert node_id info. unfold run. induction evs as [|ev evs IH] using rev_ind.
  { intros node_id info Hin. inversion Hin. }
  rewrite foldl_snoc. intros node_id info.
  destruct (table_after_step (foldl step __init__ evs) ev)
    as [-> | [(h & pt & p & now & Hh & Hp & Hint & Hin & ->) | (k & ->)]].
  - apply IH.
  - intros [Hold | Hnew%list_elem_of_singleton]%elem_of_app; [now apply IH |].
    injection Hnew as -> ->. exists pt.
    split; [reflexivity | split; [exact Hint | split; [exact Hh | exact Hp]]].
  - intros [_ Hold]%list_elem_of_filter. now apply IH.
Qed.

(** The ids on the ring of the registry are tokens. *)
Lemma registry_members_tokens evs n :
  n ∈ Hashing.nodes (ring (run evs)) -> token n.
Proof.
  intros Hn%(inv_members _ (coordinator_inv_run evs)).
  apply list_elem_of_fmap in Hn as ([k info] & -> & Hin).
  destruct (registry_entries evs k info Hin) as (pt & -> & _ & Hh & Hp).
  now apply token_node_id.
Qed.

(** X16. In every state the registry goes through: no id is registered
    twice, the members of the ring are exactly the registered ids, and every
    entry sits under the id [host:port] made of its host and of a text
    whose number is its port. *)
Theorem registry_consistent evs :
  NoDup (nodes (run evs)).*1
  /\ (forall n, n ∈ Hashing.nodes (ring (run evs)) <-> n ∈ (nodes (run evs)).*1)
  /\ (forall node_id info,
        (node_id, info) ∈ nodes (run evs) ->
        exists port_text,
          node_id = host info +:+ ":" +:+ port_text
          /\ int port_text = Some (port info)
          /\ token (host info) /\ token port_text).
Proof.
  split; [apply registry_keys_nodup | split].
  - apply (inv_members _ (coordinator_inv_run evs)).
  - apply registry_entries.
Qed.


(** X18. A sweep that finds somebody dead whose id splits into host and
    port never returns: it calls [_unregister_node] while holding the lock
    that call takes. The entry stays, the lock stays held, and from then on
    every request that needs the lock waits for ever too. *)
Theorem sweep_deadlocks c clock node_id others h p :
  lock c = false -> dead_nodes clock c = node_id :: others ->
  unpack2 (split_on ":" node_id) = Return (h, p) ->
  _heartbeat_loop clock c = Blocked (set_lock true c)
  /\ nodes (set_lock true c) = nodes c /\ ring (set_lock true c) = ring c
  /\ (forall host port now,
        _register_node host port now (set_lock true c) = Blocked (set_lock true c))
  /\ (forall host port,
        _unregister_node host port (set_lock true c) = Blocked (set_lock true c))
  /\ (forall key, _get_nodes_for_key key (set_lock true c) = Blocked (set_lock true c))
  /\ _list_nodes (set_lock true c) = Blocked (set_lock true c).
Proof.
  intros Hl Hdead Hsplit. split; [| split; [reflexivity | split; [reflexivity |]]].
  - unfold _heartbeat_loop. rewrite with_lock_free by assumption.
    change (dead_nodes clock (set_lock true c)) with (dead_nodes clock c).
    rewrite Hdead. cbn [unregister_dead]. rewrite Hsplit.
    unfold bind, _unregister_node, bind. now rewrite with_lock_held.
  - repeat split; intros;
      unfold _register_node, _unregister_node, _get_nodes_for_key, _list_nodes,
        try_except, bind; now rewrite with_lock_held.
Qed.

(** X19. A sweep that finds somebody dead whose id does not split into
    exactly a host and a port (a host with a colon in it) raises the
    [ValueError] of the unpacking: the lock is released, nothing is removed,
    the entries after it are not looked at. *)
Theorem sweep_raises_on_odd_id c clock node_id others e :
  lock c = false -> dead_nodes clock c = node_id :: others ->
  unpack2 (split_on ":" node_id) = Raise e ->
  _heartbeat_loop clock c = Raised c e.
Proof.
  intros Hl Hdead Hsplit. unfold _heartbeat_loop. rewrite with_lock_free by assumption.
  change (dead_nodes clock (set_lock true c)) with (dead_nodes clock c).
  rewrite Hdead. cbn [unregister_dead]. rewrite Hsplit. unfold raise.
  now rewrite unlock_lock.
Qed.

End RegistryTable.

(** ** The client and the placement answer *)

Section ClientPlacement.
Import Py Client.

Lemma append_empty_r s : s +:+ EmptyString = s.
Proof. induction s as [|c s IH]; [reflexivity |]. rewrite append_cons. now rewrite IH. Qed.

Lemma join_snoc sep l x :
  l <> [] -> join sep (l ++ [x]) = join sep l +:+ sep +:+ x.
Proof.
  induction l as [|w l IH]; intros Hne; [contradiction |].
  destruct l as [|w' l'].
  - reflexivity.
  - change (join sep ((w :: w' :: l') ++ [x])) with (w +:+ sep +:+ join sep ((w' :: l') ++ [x])).
    rewrite IH by discriminate.
    change (join sep (w :: w' :: l')) with (w +:+ sep +:+ join sep (w' :: l')).
    now rewrite !append_assoc.
Qed.












End ClientPlacement.

(** ** The client against a running registry and a storage node *)

Section ClientAndServices.
Import Py.

Lemma handle_get_nodes key now c :
  token key ->
  Coordinator._handle_client ("GET_NODES_FOR_KEY " +:+ key) now c
  = match Coordinator._get_nodes_for_key key c with
    | Coordinator.Returned c' response => Coordinator.Returned c' (Some response)
    | Coordinator.Raised c' _ => Coordinator.Returned c' None
    | Coordinator.Blocked c' => Coordinator.Blocked c'
    end.
Proof.
  intros Hk. unfold Coordinator._handle_client.
  rewrite strip_command by (assumption || (eexists _, _; split; reflexivity)).
  destruct (decide (_ = EmptyString)) as [He | _].
  { apply append_empty_inv in He. now destruct Hk. }
  unfold Coordinator._process_command. rewrite fields_get_nodes by assumption.
  destruct (decide ("GET_NODES_FOR_KEY" = "REGISTER_NODE")); [discriminate |].
  destruct (decide ("GET_NODES_FOR_KEY" = "UNREGISTER_NODE")); [discriminate |].
  destruct (decide ("GET_NODES_FOR_KEY" = "GET_NODES_FOR_KEY")); [| congruence].
  unfold Coordinator.try_except, Coordinator.bind.
  now destruct (Coordinator._get_nodes_for_key key c).
Qed.

(** [_get_nodes_for_key] of the registry catches what the lookup raises:
    it answers a text whenever the lock is free. *)
Lemma get_nodes_for_key_outcome key c :
  Coordinator._get_nodes_for_key key c
  = if Coordinator.lock c then Coordinator.Blocked c
    else Coordinator.Returned c
           match Hashing.get_nodes (Coordinator.ring c) key 3 with
           | Return [] => "ERROR No nodes available"
           | Return (primary :: replicas) =>
               foldl (fun response n =>
                        response +:+ Coordinator.newline +:+ "REPLICA " +:+ n)
                     ("PRIMARY " +:+ primary) replicas
           | Raise e => "ERROR " +:+ str_exception e
           end.
Proof.
  unfold Coordinator._get_nodes_for_key, Coordinator.try_except, Coordinator.bind.
  destruct (Coordinator.lock c) eqn:Hl.
  - now rewrite with_lock_held.
  - rewrite with_lock_free by assumption. cbn [Coordinator.ring Coordinator.set_lock].
    destruct (Hashing.get_nodes (Coordinator.ring c) key 3) as [[|p rs] | e];
      cbn [Coordinator.ret]; now rewrite unlock_lock.
Qed.

Lemma answer_get_nodes key now c :
  token key ->
  Wire.coordinator_answers c now ("GET_NODES_FOR_KEY " +:+ key)
  = if Coordinator.lock c then None
    else Some
           match Hashing.get_nodes (Coordinator.ring c) key 3 with
           | Return [] => "ERROR No nodes available"
           | Return (primary :: replicas) =>
               foldl (fun response n =>
                        response +:+ Coordinator.newline +:+ "REPLICA " +:+ n)
                     ("PRIMARY " +:+ primary) replicas
           | Raise e => "ERROR " +:+ str_exception e
           end.
Proof.
  intros Hk. unfold Wire.coordinator_answers.
  rewrite handle_get_nodes, get_nodes_for_key_outcome by assumption.
  now destruct (Coordinator.lock c).
Qed.

Lemma strip_error msg : Client.startswith "ERROR" (strip ("ERROR " +:+ msg)) = true.
Proof.
  unfold strip. rewrite lstrip_payload by (eexists _, _; split; reflexivity).
  change ("ERROR " +:+ msg)
    with (String "E" (String "R" (String "R" (String "O" (String "R" (String " " msg)))))).
  generalize (String " " msg). intros t. cbn [rstrip_by].
  now destruct (rstrip_by isspace t).
Qed.


Lemma placement_error key now c e :
  token key -> Coordinator.lock c = false ->
  Hashing.get_nodes (Coordinator.ring c) key 3 = Raise e ->
  Client._get_nodes_for_key (Wire.coordinator_answers c now) key = None.
Proof.
  intros Hk Hl He. unfold Client._get_nodes_for_key, Client._send_to_coordinator.
  rewrite answer_get_nodes by assumption. rewrite Hl, He.
  cbn [fmap option_fmap option_map]. rewrite strip_error.
  now destruct (decide (_ = EmptyString)).
Qed.




Lemma placement_empty_registry evs now key :
  token key -> Coordinator.nodes (Coordinator.run evs) = [] ->
  Client._get_nodes_for_key (Wire.coordinator_answers (Coordinator.run evs) now) key = None.
Proof.
  intros Hk He. pose proof (coordinator_inv_run evs) as Hinv.
  assert (Hl : Coordinator.lock (Coordinator.run evs) = false).
  { destruct (Coordinator.lock (Coordinator.run evs)) eqn:Hl; [| reflexivity].
    now destruct (Coordinator.inv_lock _ Hinv Hl). }
  assert (Hn : Hashing.nodes (Coordinator.ring (Coordinator.run evs)) = ∅).
  { apply leibniz_equiv, elem_of_equiv_empty.
    intros n Hn%(Coordinator.inv_members _ Hinv). rewrite He in Hn. inversion Hn. }
  destruct (empty_ring_lookup _ key 3 (Coordinator.inv_ring _ Hinv) Hn) as [_ Hget].
  now apply (placement_error key now _ _ Hk Hl Hget).
Qed.

(** X21. With nobody registered, [put], [get] and [delete] of the client
    give up ([False], [None], [False]) without contacting any node, whatever
    the nodes would have answered. *)
Theorem client_without_nodes evs now node key value :
  token key -> Coordinator.nodes (Coordinator.run evs) = [] ->
  let coord := Wire.coordinator_answers (Coordinator.run evs) now in
  Client.put coord node key value = (Return false, [])
  /\ Client.get coord node key = (Return None, [])
  /\ Client.delete coord node key = (Return false, []).
Proof.
  intros Hk He coord. unfold Client.put, Client.get, Client.delete, coord.
  now rewrite placement_empty_registry by assumption.
Qed.






Section OneNode.
Variable net : Node.network.






End OneNode.







(** The loop of [get] over the replicas stops at the first one that
    answers a value, and goes past every other answer or failure. *)
Lemma get_from_replicas_found node command before replica after host port :
  Forall (fun b => exists h p,
            split_on ":" b = [h; p]
            /\ Client.is_value (Client._send_to_node node h p command) = false) before ->
  split_on ":" replica = [host; port] ->
  Client.is_value (Client._send_to_node node host port command) = true ->
  exists contacts,
    Client.get_from_replicas node command (before ++ replica :: after)
    = (Return (Some (Client.value_of (Client._send_to_node node host port command))),
       contacts ++ [(host, port, command)])
    /\ length contacts = length before.
Proof.
  intros Hbefore Hsplit Hvalue. induction before as [|b before IH].
  - exists []. cbn [app Client.get_from_replicas]. rewrite Hsplit. cbn [unpack2].
    now rewrite Hvalue.
  - apply Forall_cons in Hbefore as [(h & p & Hb & Hno) Hbefore].
    destruct (IH Hbefore) as (contacts & Heq & Hlen).
    exists ((h, p, command) :: contacts).
    rewrite <- app_comm_cons. cbn [Client.get_from_replicas]. rewrite Hb. cbn [unpack2].
    rewrite Hno, Heq. split; [reflexivity |]. cbn [length]. now rewrite Hlen.
Qed.

Lemma get_from_replicas_none node command replicas :
  Forall (fun b => exists h p,
            split_on ":" b = [h; p]
            /\ Client.is_value (Client._send_to_node node h p command) = false) replicas ->
  exists contacts,
    Client.get_from_replicas node command replicas = (Return None, contacts)
    /\ length contacts = length replicas.
Proof.
  induction replicas as [|b replicas IH]; intros Hall.
  - now exists [].
  - apply Forall_cons in Hall as [(h & p & Hb & Hno) Hall].
    destruct (IH Hall) as (contacts & Heq & Hlen).
    exists ((h, p, command) :: contacts).
    cbn [Client.get_from_replicas]. rewrite Hb. cbn [unpack2].
    rewrite Hno, Heq. split; [reflexivity |]. cbn [length]. now rewrite Hlen.
Qed.

(** X25. When the primary neither answers a value nor [NOT_FOUND] (it
    failed, or answered something else), [get] asks the replicas in the
    order the registry named them: it returns the value of the first one
    that answers a value, having gone past every replica before it, whatever
    those answered, [NOT_FOUND] included, and asks none after it; and it
    returns [None] after asking all of them when none answers a value. *)
Theorem get_falls_back_to_replicas coord node key info host port :
  Client._get_nodes_for_key coord key = Some info ->
  split_on ":" (Client.primary info) = [host; port] ->
  let command := "GET " +:+ key in
  let silent := fun b => exists h p,
                  split_on ":" b = [h; p]
                  /\ Client.is_value (Client._send_to_node node h p command) = false in
  Client.is_value (Client._send_to_node node host port command) = false ->
  Client._send_to_node node host port command <> Some "NOT_FOUND" ->
  (forall before replica after rhost rport,
     Client.replicas info = before ++ replica :: after ->
     Forall silent before ->
     split_on ":" replica = [rhost; rport] ->
     Client.is_value (Client._send_to_node node rhost rport command) = true ->
     exists contacts,
       Client.get coord node key
       = (Return (Some (Client.value_of (Client._send_to_node node rhost rport command))),
          (host, port, command) :: contacts ++ [(rhost, rport, command)])
       /\ length contacts = length before)
  /\ (Forall silent (Client.replicas info) ->
      exists contacts,
        Client.get coord node key = (Return None, (host, port, command) :: contacts)
        /\ length contacts = length (Client.replicas info)).
Proof.
  intros Hinfo Hsplit command silent Hno Hnf.
  assert (Hget : Client.get coord node key
                 = (let (r, contacts) :=
                      Client.get_from_replicas node command (Client.replicas info) in
                    (r, (host, port, command) :: contacts))).
  { unfold Client.get. rewrite Hinfo, Hsplit. cbn [unpack2]. fold command.
    rewrite Hno. rewrite bool_decide_eq_false_2 by exact Hnf. reflexivity. }
  split.
  - intros before replica after rhost rport Hrs Hbefore Hr Hvalue.
    destruct (get_from_replicas_found node command before replica after rhost rport
                Hbefore Hr Hvalue) as (contacts & Heq & Hlen).
    exists contacts. rewrite Hget, Hrs, Heq. now split.
  - intros Hall.
    destruct (get_from_replicas_none node command (Client.replicas info) Hall)
      as (contacts & Heq & Hlen).
    exists contacts. rewrite Hget, Heq. now split.
Qed.

(** Trailing white space after a text is dropped with it. *)
Lemma rstrip_append_blank a b :
  rstrip_by isspace b = EmptyString -> rstrip_by isspace (a +:+ b) = rstrip_by isspace a.
Proof.
  intros Hb. induction a as [|c a IH]; [now rewrite append_nil |].
  rewrite append_cons. cbn [rstrip_by]. now rewrite IH.
Qed.

(** The text [_list_nodes] builds, before it is stripped. *)
Lemma list_text l ids :
  l <> [] ->
  foldl (fun response node_id => response +:+ "  " +:+ node_id +:+ Coordinator.newline)
        (join Coordinator.newline l +:+ Coordinator.newline) ids
  = join Coordinator.newline (l ++ ((fun node_id => "  " +:+ node_id) <$> ids))
    +:+ Coordinator.newline.
Proof.
  revert l. induction ids as [|node_id ids IH]; intros l Hne.
  - now rewrite app_nil_r.
  - cbn [foldl fmap list_fmap].
    replace ((join Coordinator.newline l +:+ Coordinator.newline)
             +:+ "  " +:+ node_id +:+ Coordinator.newline)
      with (join Coordinator.newline (l ++ ["  " +:+ node_id]) +:+ Coordinator.newline)
      by (rewrite join_snoc by assumption; now rewrite !append_assoc).
    rewrite IH by (destruct l; discriminate). now rewrite <- app_assoc.
Qed.

(** X26. [LIST_NODES], with the lock free: the registry is left as it was,
    and the answer is [OK No nodes registered] when nobody is registered,
    and otherwise the line [OK Nodes:] followed by one line per registered
    id, indented by two spaces, in ascending order, with no newline at the
    end. *)
Theorem list_nodes_sorted evs :
  Coordinator.lock (Coordinator.run evs) = false ->
  Coordinator._list_nodes (Coordinator.run evs)
  = Coordinator.Returned (Coordinator.run evs)
      match Coordinator.nodes (Coordinator.run evs) with
      | [] => "OK No nodes registered"
      | _ => join Coordinator.newline
               ("OK Nodes:" :: ((fun node_id => "  " +:+ node_id)
                                  <$> merge_sort String.le
                                        (Coordinator.nodes (Coordinator.run evs)).*1))
      end.
Proof.
  intros Hl. unfold Coordinator._list_nodes. rewrite with_lock_free by assumption.
  cbn [Coordinator.nodes Coordinator.set_lock].
  destruct (Coordinator.nodes (Coordinator.run evs)) as [|entry entries] eqn:Hn;
    [now rewrite unlock_lock |].
  rewrite unlock_lock by assumption. f_equal.
  set (ids := merge_sort String.le (entry :: entries).*1).
  assert (Hids : Forall token ids).
  { apply Forall_forall. intros n. unfold ids. rewrite merge_sort_Permutation, <- Hn.
    intros Hin%(Coordinator.inv_members _ (coordinator_inv_run evs)).
    now apply (registry_members_tokens evs). }
  change ("OK Nodes:" +:+ Coordinator.newline)
    with (join Coordinator.newline ["OK Nodes:"] +:+ Coordinator.newline).
  rewrite list_text by discriminate. cbn [app].
  set (lines := "OK Nodes:" :: ((fun node_id => "  " +:+ node_id) <$> ids)).
  assert (Hclean : Forall (fun w => rstrip_by isspace w = w /\ w <> EmptyString) lines).
  { unfold lines. apply Forall_cons. split; [now split |].
    apply Forall_fmap. eapply Forall_impl; [exact Hids |].
    intros n Hn'. split; [now apply rstrip_app_token | discriminate]. }
  destruct (rstrip_join_by (ascii_of_nat 10) lines Hclean ltac:(discriminate)) as [Hr Hne].
  unfold strip. rewrite lstrip_payload.
  - rewrite rstrip_append_blank by reflexivity. exact Hr.
  - unfold lines. destruct ((fun node_id => "  " +:+ node_id) <$> ids);
      cbn [join]; eexists _, _; rewrite ?append_cons; now split.
Qed.

End ClientAndServices.

(** ** A node that registers itself *)

Section NodeRegistration.
Import Py.
















End NodeRegistration.

(** ** The push of a write to the replicas *)

Section Replication.
Import Py.



End Replication.

(** ** The hash space *)

Section HashRange.
Import Sha256.

Lemma w32_range x : 0 <= w32 x < 4294967296.
Proof.
  unfold w32. change 4294967295 with (Z.ones 32). rewrite Z.land_ones by lia.
  apply Z.mod_pos_bound. reflexivity.
Qed.

Lemma round_length st kw : length st = 8%nat -> length (round st kw) = 8%nat.
Proof.
  destruct st as [|a [|b [|c [|d [|e [|f [|g [|h [|i st]]]]]]]]]; try discriminate.
  reflexivity.
Qed.

Lemma rounds_length kws st :
  length st = 8%nat -> length (fold_left round kws st) = 8%nat.
Proof.
  revert st. induction kws as [|kw kws IH]; intros st Hst; [exact Hst |].
  cbn [fold_left]. now apply IH, round_length.
Qed.

Lemma compress_words h block :
  length h = 8%nat ->
  length (compress h block) = 8%nat
  /\ Forall (fun w => 0 <= w < 4294967296) (compress h block).
Proof.
  intros Hh. unfold compress. split.
  - rewrite length_map, length_combine, rounds_length by assumption. now rewrite Hh.
  - apply Forall_map, Forall_forall. intros p _. apply w32_range.
Qed.

Lemma digest_words msg :
  length (digest msg) = 8%nat /\ Forall (fun w => 0 <= w < 4294967296) (digest msg).
Proof.
  unfold digest. generalize (chunks 64 (length (pad msg)) (pad msg)). intros blocks.
  assert (H0words : length H0 = 8%nat /\ Forall (fun w => 0 <= w < 4294967296) H0).
  { split; [reflexivity |]. unfold H0. repeat (apply Forall_cons; split; [lia |]).
    constructor. }
  revert H0words. generalize H0. induction blocks as [|b blocks IH]; intros h Hh.
  - exact Hh.
  - cbn [fold_left]. apply IH. apply compress_words. now destruct Hh.
Qed.

(** X30. Ring positions are 256-bit numbers: [_hash] of any text lies in
    [0, 2^256), and so does every position of every ring the calls can
    build. *)
Theorem hash_range :
  (forall key, 0 <= Hashing._hash key < 2 ^ 256)
  /\ (forall calls p n,
        Hashing.ring (Hashing.run calls) !! p = Some n -> 0 <= p < 2 ^ 256).
Proof.
  assert (Hhash : forall key, 0 <= Hashing._hash key < 2 ^ 256).
  { intros key. unfold Hashing._hash, digest_int.
    destruct (digest_words (utf8 key)) as [Hlen Hall].
    destruct (digest (utf8 key)) as [|a [|b [|c [|d [|e [|f [|g [|h [|i l]]]]]]]]];
      try discriminate.
    repeat (apply Forall_cons in Hall as [? Hall]).
    cbn [fold_left]. change (2 ^ 256) with
      115792089237316195423570985008687907853269984665640564039457584007913129639936.
    lia. }
  split; [exact Hhash |].
  intros calls p n Hp.
  apply (Hashing.inv_owner _ (ring_inv_run calls)) in Hp as [_ Hp].
  unfold Hashing.virtual_hashes in Hp. apply list_elem_of_fmap in Hp as (i & -> & _).
  apply Hhash.
Qed.

End HashRange.

(** ** The further properties on concrete rings, registries and nodes *)

Lemma get_node_successor_witness :
  Hashing.get_node (Hashing.run three_nodes) "user:42" = Py.Return "node3:5003"
  /\ exists p,
      Hashing.ring (Hashing.run three_nodes) !! p = Some "node3:5003"
      /\ ((Hashing._hash "user:42" < p
           /\ forall q, is_Some (Hashing.ring (Hashing.run three_nodes) !! q) ->
                        Hashing._hash "user:42" < q -> p <= q)
          \/ ((forall q, is_Some (Hashing.ring (Hashing.run three_nodes) !! q) ->
                         q <= Hashing._hash "user:42")
              /\ forall q, is_Some (Hashing.ring (Hashing.run three_nodes) !! q) -> p <= q)).
Proof.
  assert (Hget : Hashing.get_node (Hashing.run three_nodes) "user:42"
                 = Py.Return "node3:5003") by (vm_compute; reflexivity).
  split; [exact Hget |].
  exact (get_node_successor three_nodes "user:42" "node3:5003" Hget).
Defined.

Lemma add_remove_round_trip_witness :
  ("node2:5002" ∉ Hashing.nodes (Hashing.run two_nodes))
  /\ (forall p, p ∈ Hashing.virtual_hashes "node2:5002" ->
                Hashing.ring (Hashing.run two_nodes) !! p = None)
  /\ Hashing.remove_node (Hashing.add_node (Hashing.run two_nodes) "node2:5002") "node2:5002"
     = Hashing.run two_nodes.
Proof.
  assert (Hx : "node2:5002" ∉ Hashing.nodes (Hashing.run two_nodes)) by compute_done.
  assert (Hfree : forall p, p ∈ Hashing.virtual_hashes "node2:5002" ->
                            Hashing.ring (Hashing.run two_nodes) !! p = None).
  { apply Forall_forall. compute_done. }
  split; [exact Hx | split; [exact Hfree |]].
  exact (add_remove_round_trip two_nodes "node2:5002" Hx Hfree).
Defined.

Lemma add_node_commutes_witness :
  (forall p, p ∈ Hashing.virtual_hashes "node1:5001" ->
             p ∉ Hashing.virtual_hashes "node2:5002")
  /\ Hashing.add_node (Hashing.add_node Hashing.__init__ "node1:5001") "node2:5002"
     = Hashing.add_node (Hashing.add_node Hashing.__init__ "node2:5002") "node1:5001".
Proof.
  assert (Hfree : forall p, p ∈ Hashing.virtual_hashes "node1:5001" ->
                            p ∉ Hashing.virtual_hashes "node2:5002").
  { apply Forall_forall. compute_done. }
  split; [exact Hfree |].
  exact (add_node_commutes Hashing.__init__ "node1:5001" "node2:5002" Hfree).
Defined.

Lemma other_keys_untouched_witness :
  let n := Node._put (Node.__init__ "127.0.0.1" 5001) "size" "large" in
  Py.token "color" /\ Py.token "size" /\ Py.payload "dark blue" /\ "color" <> "size"
  /\ (Node._process_command nobody
        (Node._process_command nobody n ("PUT " +:+ "color" +:+ " " +:+ "dark blue")).1.1
        ("GET " +:+ "size")).1.2
     = (Node._process_command nobody n ("GET " +:+ "size")).1.2
  /\ (Node._process_command nobody
        (Node._process_command nobody n ("DELETE " +:+ "color")).1.1
        ("GET " +:+ "size")).1.2
     = (Node._process_command nobody n ("GET " +:+ "size")).1.2.
Proof.
  intros n.
  assert (Hk : Py.token "color") by literal_token.
  assert (Hk' : Py.token "size") by literal_token.
  assert (Hv : Py.payload "dark blue") by (eexists _, _; split; reflexivity).
  assert (Hne : "color" <> "size") by discriminate.
  split; [exact Hk | split; [exact Hk' | split; [exact Hv | split; [exact Hne |]]]].
  exact (other_keys_untouched nobody n "color" "size" "dark blue" Hk Hk' Hv Hne).
Defined.

Lemma last_write_wins_witness :
  let n := Node.__init__ "127.0.0.1" 5001 in
  Py.token "color" /\ Py.payload "red" /\ Py.payload "dark blue"
  /\ Node._process_command nobody n ("REPLICATE " +:+ "color" +:+ " " +:+ "red")
     = Node._process_command nobody n ("PUT " +:+ "color" +:+ " " +:+ "red")
  /\ (Node._process_command nobody
        (Node._process_command nobody
           (Node._process_command nobody n ("PUT " +:+ "color" +:+ " " +:+ "red")).1.1
           ("REPLICATE " +:+ "color" +:+ " " +:+ "dark blue")).1.1
        ("GET " +:+ "color")).1.2
     = "VALUE " +:+ "dark blue"
  /\ (Node._process_command nobody
        (Node._process_command nobody
           (Node._process_command nobody n ("REPLICATE " +:+ "color" +:+ " " +:+ "red")).1.1
           ("PUT " +:+ "color" +:+ " " +:+ "dark blue")).1.1
        ("GET " +:+ "color")).1.2
     = "VALUE " +:+ "dark blue".
Proof.
  intros n.
  assert (Hk : Py.token "color") by literal_token.
  assert (Hv1 : Py.payload "red") by (eexists _, _; split; reflexivity).
  assert (Hv2 : Py.payload "dark blue") by (eexists _, _; split; reflexivity).
  split; [exact Hk | split; [exact Hv1 | split; [exact Hv2 |]]].
  exact (last_write_wins nobody n "color" "red" "dark blue" Hk Hv1 Hv2).
Defined.

Lemma info_counts_keys_witness :
  let n := Node._put (Node.__init__ "127.0.0.1" 5001) "size" "large" in
  Py.token "color" /\ Py.payload "dark blue"
  /\ (Node._process_command nobody
        (Node._process_command nobody n ("PUT " +:+ "color" +:+ " " +:+ "dark blue")).1.1
        "INFO").1.2
     = "OK Node 127.0.0.1:5001 keys=2"
  /\ (Node._process_command nobody
        (Node._process_command nobody n ("DELETE " +:+ "size")).1.1 "INFO").1.2
     = "OK Node 127.0.0.1:5001 keys=0".
Proof.
  intros n.
  assert (Hk : Py.token "color") by literal_token.
  assert (Hk' : Py.token "size") by literal_token.
  assert (Hv : Py.payload "dark blue") by (eexists _, _; split; reflexivity).
  split; [exact Hk | split; [exact Hv | split]].
  - rewrite (proj1 (info_counts_keys nobody n "color" "dark blue" Hk Hv)).
    vm_compute. reflexivity.
  - rewrite (proj2 (info_counts_keys nobody n "size" "dark blue" Hk' Hv)).
    vm_compute. reflexivity.
Defined.

Lemma only_writes_modify_witness :
  let n := Node.__init__ "127.0.0.1" 5001 in
  (Node._process_command nobody n "PUT color blue").1.1 <> n
  /\ (exists verb fields,
        Py.split_max 2 "PUT color blue" = verb :: fields
        /\ (verb = "PUT" \/ verb = "DELETE" \/ verb = "REPLICATE"))
  /\ (Node._process_command nobody n "PUT color blue").1.2 = "OK".
Proof.
  intros n.
  assert (Hne : (Node._process_command nobody n "PUT color blue").1.1 <> n).
  { intros He. apply (f_equal (fun m => Node._get m "color")) in He.
    vm_compute in He. discriminate He. }
  split; [exact Hne |].
  exact (only_writes_modify nobody n "PUT color blue" Hne).
Defined.

Lemma unregister_unknown_witness :
  Py.token "127.0.0.1" /\ Py.token "5002"
  /\ Coordinator.lock one_registered = false
  /\ ("127.0.0.1" +:+ ":" +:+ "5002" ∉ (Coordinator.nodes one_registered).*1)
  /\ Coordinator._process_command ("UNREGISTER_NODE " +:+ "127.0.0.1" +:+ " " +:+ "5002") 3
       one_registered
     = Coordinator.Returned one_registered
         ("ERROR Node " +:+ ("127.0.0.1" +:+ ":" +:+ "5002") +:+ " not found").
Proof.
  assert (Hh : Py.token "127.0.0.1") by literal_token.
  assert (Hp : Py.token "5002") by literal_token.
  assert (Hin : "127.0.0.1" +:+ ":" +:+ "5002" ∉ (Coordinator.nodes one_registered).*1)
    by compute_done.
  split; [exact Hh | split; [exact Hp | split; [exact one_registered_unlocked |]]].
  split; [exact Hin |].
  exact (unregister_unknown one_registered "127.0.0.1" "5002" 3 Hh Hp
           one_registered_unlocked Hin).
Defined.



Lemma entry_never_changes_witness :
  let ev := Coordinator.Connection "REGISTER_NODE 127.0.0.1 5001" 7 in
  Coordinator.dict_get (Coordinator.nodes one_registered) "127.0.0.1:5001" = Some first_entry
  /\ (Coordinator.dict_get (Coordinator.nodes (Coordinator.step one_registered ev))
        "127.0.0.1:5001" = Some first_entry
      \/ Coordinator.dict_get (Coordinator.nodes (Coordinator.step one_registered ev))
           "127.0.0.1:5001" = None).
Proof.
  intros ev.
  assert (Hget : Coordinator.dict_get (Coordinator.nodes one_registered) "127.0.0.1:5001"
                 = Some first_entry) by (vm_compute; reflexivity).
  split; [exact Hget |].
  exact (entry_never_changes one_registered ev "127.0.0.1:5001" first_entry Hget).
Defined.


Lemma sweep_deadlocks_witness :
  let clock : string -> Z := fun _ => 11 in
  let held := Coordinator.set_lock true one_registered in
  Coordinator.lock one_registered = false
  /\ Coordinator.dead_nodes clock one_registered = ["127.0.0.1:5001"]
  /\ Py.unpack2 (Py.split_on ":" "127.0.0.1:5001") = Py.Return ("127.0.0.1", "5001")
  /\ Coordinator._heartbeat_loop clock one_registered = Coordinator.Blocked held
  /\ Coordinator._list_nodes held = Coordinator.Blocked held.
Proof.
  intros clock held.
  assert (Hdead : Coordinator.dead_nodes clock one_registered = ["127.0.0.1:5001"])
    by (vm_compute; reflexivity).
  assert (Hsplit : Py.unpack2 (Py.split_on ":" "127.0.0.1:5001")
                   = Py.Return ("127.0.0.1", "5001")) by reflexivity.
  split; [exact one_registered_unlocked | split; [exact Hdead | split; [exact Hsplit |]]].
  pose proof (sweep_deadlocks one_registered clock "127.0.0.1:5001" [] "127.0.0.1" "5001"
                one_registered_unlocked Hdead Hsplit) as (Hloop & _ & _ & _ & _ & _ & Hlist).
  split; [exact Hloop | exact Hlist].
Defined.

Lemma sweep_raises_on_odd_id_witness :
  let clock : string -> Z := fun _ => 11 in
  let c := Coordinator.run odd_registered in
  let e := Py.ValueError "too many values to unpack (expected 2)" in
  Coordinator.lock c = false
  /\ Coordinator.dead_nodes clock c = ["a:b:80"]
  /\ Py.unpack2 (Py.split_on ":" "a:b:80") = Py.Raise e
  /\ Coordinator._heartbeat_loop clock c = Coordinator.Raised c e.
Proof.
  intros clock c e.
  assert (Hl : Coordinator.lock c = false) by (vm_compute; reflexivity).
  assert (Hdead : Coordinator.dead_nodes clock c = ["a:b:80"]) by (vm_compute; reflexivity).
  assert (Hsplit : Py.unpack2 (Py.split_on ":" "a:b:80") = Py.Raise e) by reflexivity.
  split; [exact Hl | split; [exact Hdead | split; [exact Hsplit |]]].
  exact (sweep_raises_on_odd_id c clock "a:b:80" [] e Hl Hdead Hsplit).
Defined.


Lemma client_without_nodes_witness :
  let evs := [Coordinator.Connection "REGISTER_NODE 127.0.0.1 5001" 0;
              Coordinator.Connection "UNREGISTER_NODE 127.0.0.1 5001" 1] in
  let coord := Wire.coordinator_answers (Coordinator.run evs) 2 in
  let node := Wire.node_answers nobody (Node.__init__ "127.0.0.1" 5001) in
  Py.token "color" /\ Coordinator.nodes (Coordinator.run evs) = []
  /\ Client.put coord node "color" "dark blue" = (Py.Return false, [])
  /\ Client.get coord node "color" = (Py.Return None, [])
  /\ Client.delete coord node "color" = (Py.Return false, []).
Proof.
  intros evs coord node.
  assert (Hk : Py.token "color") by literal_token.
  assert (Hn : Coordinator.nodes (Coordinator.run evs) = []) by (vm_compute; reflexivity).
  split; [exact Hk | split; [exact Hn |]].
  exact (client_without_nodes evs 2 node "color" "dark blue" Hk Hn).
Defined.




Lemma get_falls_back_to_replicas_witness :
  let info := {| Client.primary := "a:1"; Client.replicas := ["b:2"; "c:3"] |} in
  let command := "GET " +:+ "color" in
  let silent := fun b => exists h p,
                  Py.split_on ":" b = [h; p]
                  /\ Client.is_value (Client._send_to_node only_last_replica h p command)
                     = false in
  Client._get_nodes_for_key fixed_placement "color" = Some info
  /\ Py.split_on ":" "a:1" = ["a"; "1"]
  /\ Client.is_value (Client._send_to_node only_last_replica "a" "1" command) = false
  /\ Client._send_to_node only_last_replica "a" "1" command <> Some "NOT_FOUND"
  /\ Forall silent ["b:2"]
  /\ Py.split_on ":" "c:3" = ["c"; "3"]
  /\ Client.is_value (Client._send_to_node only_last_replica "c" "3" command) = true
  /\ exists contacts,
      Client.get fixed_placement only_last_replica "color"
      = (Py.Return
           (Some (Client.value_of (Client._send_to_node only_last_replica "c" "3" command))),
         ("a", "1", command) :: contacts ++ [("c", "3", command)])
      /\ length contacts = 1%nat.
Proof.
  intros info command silent.
  assert (Hinfo : Client._get_nodes_for_key fixed_placement "color" = Some info)
    by (vm_compute; reflexivity).
  assert (Hsplit : Py.split_on ":" "a:1" = ["a"; "1"]) by reflexivity.
  assert (Hno : Client.is_value (Client._send_to_node only_last_replica "a" "1" command)
                = false) by reflexivity.
  assert (Hnf : Client._send_to_node only_last_replica "a" "1" command <> Some "NOT_FOUND")
    by discriminate.
  assert (Hbefore : Forall silent ["b:2"]).
  { apply Forall_cons. split; [| constructor]. exists "b", "2". now split. }
  assert (Hr : Py.split_on ":" "c:3" = ["c"; "3"]) by reflexivity.
  assert (Hvalue : Client.is_value (Client._send_to_node only_last_replica "c" "3" command)
                   = true) by reflexivity.
  split; [exact Hinfo | split; [exact Hsplit | split; [exact Hno | split; [exact Hnf |]]]].
  split; [exact Hbefore | split; [exact Hr | split; [exact Hvalue |]]].
  exact (proj1 (get_falls_back_to_replicas fixed_placement only_last_replica "color" info
                  "a" "1" Hinfo Hsplit Hno Hnf)
           ["b:2"] "c:3" [] "c" "3" eq_refl Hbefore Hr Hvalue).
Defined.

Lemma list_nodes_sorted_witness :
  Coordinator.lock (Coordinator.run two_registered) = false
  /\ Coordinator._list_nodes (Coordinator.run two_registered)
     = Coordinator.Returned (Coordinator.run two_registered)
         ("OK Nodes:" +:+ Coordinator.newline +:+ "  127.0.0.1:5001"
          +:+ Coordinator.newline +:+ "  127.0.0.1:5002").
Proof.
  assert (Hl : Coordinator.lock (Coordinator.run two_registered) = false)
    by (vm_compute; reflexivity).
  split; [exact Hl |].
  rewrite (list_nodes_sorted two_registered Hl). f_equal.
Defined.



